(** * pongpi: the drawables of the LED-strip Pong field

    A shallow embedding of the drawables of brandonagr/pongpi
    ([src/pong/draw/player.go] and the two [package pong] listings kept
    with it): the fixed-point colour [blend], the [Line], [Player] and
    [Ball] drawables, and the table lookup of the [Sinusoid] background.

    Colour channels and [uint] values are integers, every [uint] and
    [uint8] reduction written out.

    Go's [float64] values are read through an interface, [Float64], with
    two instances.  [Binary64] interprets them as the kernel's IEEE 754
    binary64 numbers: the program is run there, bit for bit, on concrete
    inputs.  [Exact] interprets them as rationals (no rounding, no
    infinities, no NaN); the two differ wherever an operation rounds, so
    what is proved over the rationals is kept to bounds, orders and signs,
    which the monotone rounding of binary64 preserves, and what the program
    computes is stated for every instance, in the program's own operations
    and tests.

    A method that updates its receiver returns the new receiver with its
    result; a slice read out of range, where Go panics, returns [None]. *)

From Stdlib Require Import ZArith QArith Qabs Qround List Bool Lia Lqa.
From Stdlib Require Import PrimFloat SpecFloat FloatOps Uint63.
Import ListNotations.

Local Open Scope Z_scope.

(** ** Machine integers *)

(** Go's [uint8(x)]: the low eight bits. *)
Definition uint8 (x : Z) : Z := x mod 256.

(** Go's [uint] has 32 or 64 bits, by platform; [uint_w w] is the
    arithmetic of a [w]-bit [uint]. *)
Definition uint_w (w : Z) (x : Z) : Z := x mod 2 ^ w.

(** ** Colours *)

(** [type RGBA color.RGBA]: four [uint8] channels. *)
Record RGBA : Type := mkRGBA { R : Z; G : Z; B : Z; A : Z }.

Definition is_uint8 (x : Z) : Prop := 0 <= x < 256.

Definition valid_RGBA (c : RGBA) : Prop :=
  is_uint8 (R c) /\ is_uint8 (G c) /\ is_uint8 (B c) /\ is_uint8 (A c).

(** [blend] on a platform whose [uint] has [w] bits.  Every product, shift,
    difference and sum is one [uint] operation; the four results are
    narrowed with [uint8]. *)
Definition blend_w (w : Z) (foreground background : RGBA) : RGBA :=
  let u := uint_w w in
  let '(fr, fg, fb, fa) :=
    (u (R foreground), u (G foreground), u (B foreground), u (A foreground)) in
  let '(br, bg, bb, ba) :=
    (u (R background), u (G background), u (B background), u (A background)) in
  let opacity := fa in
  let backgroundOpacity := Z.shiftr (u (ba * u (255 - fa))) 8 in
  mkRGBA
    (uint8 (u (Z.shiftr (u (fr * opacity)) 8 + Z.shiftr (u (br * backgroundOpacity)) 8)))
    (uint8 (u (Z.shiftr (u (fg * opacity)) 8 + Z.shiftr (u (bg * backgroundOpacity)) 8)))
    (uint8 (u (Z.shiftr (u (fb * opacity)) 8 + Z.shiftr (u (bb * backgroundOpacity)) 8)))
    (uint8 opacity).

(** The 64-bit platform is the one the rest of the file runs on;
    [blend_w_width] shows that the width does not matter. *)
Definition blend : RGBA -> RGBA -> RGBA := blend_w 64.

(** ** Floating-point numbers *)

(** What the drawables need of [float64]. *)
Class Float64 (F : Type) : Type := {
  fadd : F -> F -> F;
  fsub : F -> F -> F;
  fmul : F -> F -> F;
  fdiv : F -> F -> F;
  fneg : F -> F;
  fabs : F -> F;              (* math.Abs *)
  flt : F -> F -> bool;       (* x < y *)
  fle : F -> F -> bool;       (* x <= y *)
  fconst : Q -> F;            (* a decimal constant of the source *)
  float64_of_int : Z -> F;    (* float64(n) *)
  int_of_float64 : F -> Z     (* int(x), uint8(x): the fraction is dropped *)
}.

Declare Scope f64_scope.
Delimit Scope f64_scope with f64.
Notation "x + y" := (fadd x y) : f64_scope.
Notation "x - y" := (fsub x y) : f64_scope.
Notation "x * y" := (fmul x y) : f64_scope.
Notation "x / y" := (fdiv x y) : f64_scope.
Notation "- x" := (fneg x) : f64_scope.
Notation "x <? y" := (flt x y) : f64_scope.
Notation "x >? y" := (flt y x) : f64_scope.
Notation "x <=? y" := (fle x y) : f64_scope.

(** *** Rationals *)

(** [int(x)] drops the fraction: rounding toward zero. *)
Definition Qtrunc (x : Q) : Z := Z.quot (Qnum x) (Zpos (Qden x)).

Definition Qltb (x y : Q) : bool := negb (Qle_bool y x).

#[export] Instance Exact : Float64 Q := {
  fadd := Qplus;
  fsub := Qminus;
  fmul := Qmult;
  fdiv := Qdiv;
  fneg := Qopp;
  fabs := Qabs;
  flt := Qltb;
  fle := Qle_bool;
  fconst := fun q => q;
  float64_of_int := inject_Z;
  int_of_float64 := Qtrunc
}.

(** *** IEEE 754 binary64 *)

(** [float64(n)], for [|n| < 2^63]. *)
Definition float_of_Z (n : Z) : float :=
  if n <? 0 then PrimFloat.opp (PrimFloat.of_uint63 (Uint63.of_Z (- n)))
  else PrimFloat.of_uint63 (Uint63.of_Z n).

(** [int(x)] of a finite [x]: the integer part of [(-1)^s * m * 2^e].
    (What Go gives for NaN and the infinities depends on the platform;
    here it is 0.) *)
Definition Z_of_float (x : float) : Z :=
  match Prim2SF x with
  | S754_finite s m e =>
      let mag := if e <? 0 then Z.shiftr (Zpos m) (- e) else Z.shiftl (Zpos m) e in
      if s then - mag else mag
  | _ => 0
  end.

(** A decimal constant [n/d] is the binary64 number nearest to it: the
    correctly rounded quotient of [n] and [d], both exact below [2^53]. *)
Definition float_of_Q (q : Q) : float :=
  PrimFloat.div (float_of_Z (Qnum q)) (float_of_Z (Zpos (Qden q))).

#[export] Instance Binary64 : Float64 float := {
  fadd := PrimFloat.add;
  fsub := PrimFloat.sub;
  fmul := PrimFloat.mul;
  fdiv := PrimFloat.div;
  fneg := PrimFloat.opp;
  fabs := PrimFloat.abs;
  flt := PrimFloat.ltb;
  fle := PrimFloat.leb;
  fconst := float_of_Q;
  float64_of_int := float_of_Z;
  int_of_float64 := Z_of_float
}.

(** ** Slices *)

(** [s[i]]: Go panics when [i] is outside [0 .. len(s)-1]; the panic is
    [None]. *)
Definition slice_get {T : Type} (s : list T) (i : Z) : option T :=
  if (0 <=? i) && (i <? Z.of_nat (length s)) then nth_error s (Z.to_nat i)
  else None.

Fixpoint list_set {T : Type} (s : list T) (n : nat) (v : T) : list T :=
  match s, n with
  | [], _ => []
  | _ :: s', O => v :: s'
  | x :: s', S n' => x :: list_set s' n' v
  end.

(** [s[i] = v], used in range only. *)
Definition slice_set {T : Type} (s : list T) (i : Z) (v : T) : list T :=
  if 0 <=? i then list_set s (Z.to_nat i) v else s.

(** [type ZIndex int] *)
Definition ZIndex : Type := Z.

(** Go's [int] arithmetic on the 64-bit platform. *)
Definition int64 (x : Z) : Z := (x + 2 ^ 63) mod 2 ^ 64 - 2 ^ 63.

(** ** Line *)

Module Line.
Section WithFloat.
Context {F : Type} `{Float64 F}.

Record t : Type := mk {
  leftEdge : F;
  rightEdge : F;
  color : RGBA;
  zindex : ZIndex
}.

Definition NewLine (leftEdge rightEdge : F) (color : RGBA) (zindex : ZIndex) : t :=
  mk leftEdge rightEdge color zindex.

Definition ColorAt (line : t) (position : F) (baseColor : RGBA) : RGBA :=
  if ((leftEdge line <=? position) && (position <=? rightEdge line))%f64
  then blend (color line) baseColor
  else baseColor.

Definition ZIndex_of (line : t) : ZIndex := zindex line.

Definition Animate (line : t) (dt : F) : t * bool := (line, true).

End WithFloat.
Arguments t F : clear implicits.
End Line.

(** The earlier value-receiver [Line] kept beside it in the sources (the
    first [package pong] listing): open bounds, and the line's colour
    returned as it is. *)
Module ValueLine.
Section WithFloat.
Context {F : Type} `{Float64 F}.

Definition ColorAt (line : Line.t F) (position : F) (baseColor : RGBA) : RGBA :=
  if ((Line.leftEdge line <? position) && (position <? Line.rightEdge line))%f64
  then Line.color line
  else baseColor.

End WithFloat.
End ValueLine.

(** ** Player *)

Module Player.
Section WithFloat.
Context {F : Type} `{Float64 F}.

Record t : Type := mk {
  line : Line.t F;
  visible : bool
}.

(** [field.Width()] is the only thing [NewPlayer] asks of the
    [GameField], whose declaration is not among the sources: the width is
    the parameter.  A field the composite literal leaves out has its zero
    value: [visible] is [false]. *)
Definition NewPlayer (isLeft : bool) (width : Z) : t :=
  if isLeft then
    mk (Line.NewLine (fconst 0) (float64_of_int (Z.quot width 2))
          (mkRGBA 255 0 0 200) 10)
       false
  else
    mk (Line.NewLine (float64_of_int (Z.quot width 2) + fconst 1)%f64
          (float64_of_int width) (mkRGBA 0 255 0 200) 10)
       false.

Definition UpdateVisible (this : t) (visible : bool) : t :=
  mk (line this) visible.

Definition ColorAt (this : t) (position : F) (baseColor : RGBA) : RGBA :=
  if negb (visible this) then baseColor
  else Line.ColorAt (line this) position baseColor.

Definition ZIndex_of (this : t) : ZIndex := Line.zindex (line this).

Definition Animate (this : t) (dt : F) : t * bool := (this, true).

(** What a caller can do to a player between two renderings. *)
Inductive call : Type :=
| CallUpdateVisible (visible : bool)
| CallAnimate (dt : F).

Definition step (this : t) (c : call) : t :=
  match c with
  | CallUpdateVisible v => UpdateVisible this v
  | CallAnimate dt => fst (Animate this dt)
  end.

Definition run (this : t) (calls : list call) : t := fold_left step calls this.

End WithFloat.
Arguments t F : clear implicits.
Arguments call F : clear implicits.
End Player.

(** ** Ball *)

Module Ball.
Section WithFloat.
Context {F : Type} `{Float64 F}.

Record t : Type := mk {
  position : F;
  velocity : F;
  maxPosition : F;
  zindex : ZIndex
}.

Definition NewBall (width : Z) : t :=
  mk (fconst 0)
     (float64_of_int width / fconst 3.0)%f64
     (float64_of_int (int64 (width - 1)))
     100.

Definition ColorAt (this : t) : F -> RGBA -> RGBA :=
  let this_position := position this in
  fun (position : F) (baseColor : RGBA) =>
  let distance := fabs (position - this_position)%f64 in
  if (distance <? fconst 1)%f64 then
    blend (mkRGBA 255 255 255
             (uint8 (int_of_float64 ((fconst 1.0 - distance) * fconst 255.0)%f64)))
          baseColor
  else baseColor.

Definition ZIndex_of (this : t) : ZIndex := zindex this.

Definition Animate (this : t) (dt : F) : t * bool :=
  let this :=
    mk (position this + velocity this * dt)%f64
       (velocity this) (maxPosition this) (zindex this) in
  let this :=
    if (position this >? maxPosition this)%f64 then
      mk (maxPosition this - (position this - maxPosition this))%f64
         (- velocity this)%f64 (maxPosition this) (zindex this)
    else if (position this <? fconst 0)%f64 then
      mk (- position this)%f64
         (- velocity this)%f64 (maxPosition this) (zindex this)
    else this in
  (this, true).

(** A sequence of [Animate] calls, one per [dt]: each call with the state
    it found, its [dt] and the state it left. *)
Fixpoint steps (this : t) (dts : list F) : list (t * F * t) :=
  match dts with
  | [] => []
  | dt :: dts' =>
      let this' := fst (Animate this dt) in
      (this, dt, this') :: steps this' dts'
  end.

End WithFloat.
Arguments t F : clear implicits.
End Ball.

(** ** Sinusoid *)

Module Sinusoid.
Section WithFloat.
Context {F : Type} `{Float64 F}.

(** [math.Sin] and [math.Pi] fill the table; no property below depends
    on what they put there, so they are parameters. *)
Variable math_Sin : F -> F.
Variable math_Pi : F.

Record t : Type := mk {
  scale : F;
  offsets : F * F * F;        (* [3]float64 *)
  zindex : ZIndex;
  sineLookup : list Z         (* []uint8 *)
}.

Definition offset0 (this : t) : F := fst (fst (offsets this)).
Definition offset1 (this : t) : F := snd (fst (offsets this)).
Definition offset2 (this : t) : F := snd (offsets this).

(** [make([]uint8, 256)], then one store per [index] from 0 to 255. *)
Definition buildLookup (this : t) : t :=
  let table :=
    fold_left
      (fun (table : list Z) (index : Z) =>
         let fieldPercentage := (float64_of_int index / fconst 256)%f64 in
         let value :=
           ((math_Sin (fieldPercentage * fconst 2.0 * math_Pi + offset0 this)
             + fconst 1.0) / fconst 2.0)%f64 in
         slice_set table index
           (Z.shiftr (uint8 (int_of_float64 (value * fconst 255.0)%f64)) 1))
      (map Z.of_nat (seq 0 256))
      (repeat 0 256) in
  mk (scale this) (offsets this) (zindex this) table.

Definition NewSinusoid (width : Z) (zindex : ZIndex) : t :=
  buildLookup (mk (float64_of_int width) (fconst 0.0, fconst 0.0, fconst 0.0) zindex []).

(** The index [int(fieldPercentage*256)] that [lookup] reads the table
    at, after its one conditional subtraction. *)
Definition lookup_index (fieldPercentage : F) : Z :=
  let fieldPercentage :=
    if (fieldPercentage >? fconst 1)%f64 then (fieldPercentage - fconst 1)%f64
    else fieldPercentage in
  int_of_float64 (fieldPercentage * fconst 256)%f64.

Definition lookup (this : t) (fieldPercentage : F) : option Z :=
  slice_get (sineLookup this) (lookup_index fieldPercentage).

(** [None] when one of the three table reads panics. *)
Definition ColorAt (this : t) (position : F) (baseColor : RGBA) : option RGBA :=
  let fieldPercentage := (position / scale this)%f64 in
  match lookup this (fieldPercentage + offset0 this)%f64 with
  | None => None
  | Some r =>
      match lookup this (fieldPercentage + offset1 this)%f64 with
      | None => None
      | Some g =>
          match lookup this (fieldPercentage + offset2 this)%f64 with
          | None => None
          | Some b => Some (mkRGBA r g b 255)
          end
      end
  end.

Definition ZIndex_of (this : t) : ZIndex := zindex this.

(** One offset's update: advance, then one conditional subtraction. *)
Definition advance (offset dt rate : F) : F :=
  let offset := (offset + dt * rate)%f64 in
  if (offset >? fconst 1)%f64 then (offset - fconst 1)%f64 else offset.

Definition Animate (this : t) (dt : F) : t * bool :=
  (mk (scale this)
      (advance (offset0 this) dt (fconst 0.27),
       advance (offset1 this) dt (fconst 0.41),
       advance (offset2 this) dt (fconst 0.59))
      (zindex this) (sineLookup this),
   true).

Definition run (this : t) (dts : list F) : t :=
  fold_left (fun this dt => fst (Animate this dt)) dts this.

End WithFloat.
Arguments t F : clear implicits.
End Sinusoid.

(** ** The sinusoid without a table *)

(** The [Sinusoid] of the first [package pong] listing: one offset, one
    colour, and [math.Sin] called at every position. *)
Module PlainSinusoid.
Section WithFloat.
Context {F : Type} `{Float64 F}.

Variable math_Sin : F -> F.

Record t : Type := mk {
  scale : F;
  originalColor : RGBA;
  offset : F;
  zindex : ZIndex
}.

Definition NewSinusoid (scale : F) (originalColor : RGBA) (zindex : ZIndex) : t :=
  mk scale originalColor (fconst 0) zindex.

Definition ColorAt (this : t) (position : F) (baseColor : RGBA) : RGBA :=
  let sine :=
    ((math_Sin ((position + offset this) * scale this) + fconst 1.0) / fconst 2.0)%f64 in
  mkRGBA
    (uint8 (int_of_float64 (float64_of_int (R (originalColor this)) * sine)%f64))
    (uint8 (int_of_float64 (float64_of_int (G (originalColor this)) * sine)%f64))
    (uint8 (int_of_float64 (float64_of_int (B (originalColor this)) * sine)%f64))
    (A (originalColor this)).

Definition Animate (this : t) (dt : F) : t * bool :=
  (mk (scale this) (originalColor this) (offset this + dt)%f64 (zindex this), true).

Definition run (this : t) (dts : list F) : t :=
  fold_left (fun this dt => fst (Animate this dt)) dts this.

End WithFloat.
Arguments t F : clear implicits.
End PlainSinusoid.

(** ** HSL wheel *)

(** Go's [x == y] on [float64]. *)
Class Float64Eq (F : Type) : Type := {
  feq : F -> F -> bool
}.

Notation "x =? y" := (feq x y) : f64_scope.

#[export] Instance Exact_eq : Float64Eq Q := { feq := Qeq_bool }.

#[export] Instance Binary64_eq : Float64Eq float := { feq := PrimFloat.eqb }.

Module HSLWheel.
Section WithFloat.
Context {F : Type} `{Float64 F} `{Float64Eq F}.

Record t : Type := mk {
  scale : F;
  hue : F;
  zindex : ZIndex
}.

(** [field.width] is read off the [GameField], which is not among the
    sources: the width is the parameter. *)
Definition NewHSLWheel (width : Z) (zindex : ZIndex) : t :=
  mk (float64_of_int width) (fconst 0.0) zindex.

(** The closure [hueToRGB] of [hslToRGB].  Its constants [1.0/6.0],
    [1.0/2.0] and [2.0/3.0] are exact quotients, rounded once. *)
Definition hueToRGB (p q t : F) : F :=
  let t := if (t <? fconst 0.0)%f64 then (t + fconst 1.0)%f64 else t in
  let t := if (t >? fconst 1.0)%f64 then (t - fconst 1.0)%f64 else t in
  if (t <? fconst (1.0 / 6.0))%f64 then (p + (q - p) * fconst 6.0 * t)%f64
  else if (t <? fconst (1.0 / 2.0))%f64 then q
  else if (t <? fconst (2.0 / 3.0))%f64 then
    (p + (q - p) * (fconst (2.0 / 3.0) - t) * fconst 6.0)%f64
  else p.

Definition hslToRGB (hue saturation luminosity : F) : RGBA :=
  let '(red, green, blue) :=
    if (saturation =? fconst 0)%f64 then (255, 255, 255)
    else
      let q :=
        if (luminosity <? fconst 0.5)%f64 then
          (luminosity * (fconst 1.0 + saturation))%f64
        else (luminosity + saturation - luminosity * saturation)%f64 in
      let p := (fconst 2 * luminosity - q)%f64 in
      (uint8 (int_of_float64 (hueToRGB p q (hue + fconst (1.0 / 3.0)) * fconst 255.0)%f64),
       uint8 (int_of_float64 (hueToRGB p q hue * fconst 255.0)%f64),
       uint8 (int_of_float64 (hueToRGB p q (hue - fconst (1.0 / 3.0)) * fconst 255.0)%f64))
  in
  mkRGBA red green blue 255.

Definition ColorAt (this : t) (position : F) (baseColor : RGBA) : RGBA :=
  let luminosity := (position / scale this)%f64 in
  hslToRGB (hue this) (fconst 1.0) luminosity.

(** [ColorAt] of the first [package pong] listing, which lifts the
    luminosity into [0.2 .. 1]. *)
Definition ColorAt_lifted (this : t) (position : F) (baseColor : RGBA) : RGBA :=
  let luminosity := (position / scale this)%f64 in
  let luminosity := (luminosity * fconst 0.8 + fconst 0.2)%f64 in
  hslToRGB (hue this) (fconst 1.0) luminosity.

Definition ZIndex_of (this : t) : ZIndex := zindex this.

Definition Animate (this : t) (dt : F) : t * bool :=
  let hue := (hue this + dt * fconst 0.1)%f64 in
  let hue := if (hue >? fconst 1.0)%f64 then (hue - fconst 1.0)%f64 else hue in
  (mk (scale this) hue (zindex this), true).

Definition run (this : t) (dts : list F) : t :=
  fold_left (fun this dt => fst (Animate this dt)) dts this.

End WithFloat.
Arguments t F : clear implicits.
End HSLWheel.

(** ** Predicates of the statements *)

(** The weight the background enters [blend] with. *)
Definition background_weight (foreground background : RGBA) : Z :=
  Z.shiftr (A background * (255 - A foreground)) 8.

(** One colour channel of [blend], without the [uint] and [uint8]
    reductions. *)
Definition blend_channel (f fa b weight : Z) : Z :=
  Z.shiftr (f * fa) 8 + Z.shiftr (b * weight) 8.

(** [x <= y] as the program tests it. *)
Definition le_f64 {F : Type} `{Float64 F} (x y : F) : Prop := fle x y = true.

(** The ball is on the field. *)
Definition Ball_in_bounds (b : Ball.t Q) : Prop :=
  (0 <= Ball.position b <= Ball.maxPosition b)%Q.

(** Where [Animate b dt] takes the ball before it looks at the walls. *)
Definition Ball_moved (b : Ball.t Q) (dt : Q) : Q :=
  (Ball.position b + Ball.velocity b * dt)%Q.

(** The same in every number model: the position [Animate b dt] computes
    first, [position + velocity * dt], each operation the model's. *)
Definition Ball_move {F : Type} `{Float64 F} (b : Ball.t F) (dt : F) : F :=
  (Ball.position b + Ball.velocity b * dt)%f64.

(** The two tests of [Animate] on the position it computed: beyond
    [maxPosition], or below 0. *)
Definition Ball_beyond_a_wall {F : Type} `{Float64 F} (b : Ball.t F) (dt : F) : bool :=
  (Ball_move b dt >? Ball.maxPosition b)%f64 || (Ball_move b dt <? fconst 0)%f64.

(** One call of [Animate] negated the velocity if the position it
    computed tested beyond a wall, and kept it if not. *)
Definition Ball_flipped {F : Type} `{Float64 F} (step : Ball.t F * F * Ball.t F) : Prop :=
  let '(before, dt, after) := step in
  Ball.velocity after =
    if Ball_beyond_a_wall before dt then (- Ball.velocity before)%f64
    else Ball.velocity before.

(** The three offsets are between 0 and 1, as the comment on the field
    says. *)
Definition Sinusoid_offsets_unit (s : Sinusoid.t Q) : Prop :=
  (0 <= Sinusoid.offset0 s <= 1)%Q
  /\ (0 <= Sinusoid.offset1 s <= 1)%Q
  /\ (0 <= Sinusoid.offset2 s <= 1)%Q.

(** The flag a sequence of calls leaves: the argument of its last
    [UpdateVisible], or the flag it started from. *)
Definition Player_last_shown {F : Type} (calls : list (Player.call F)) (start : bool) : bool :=
  fold_left
    (fun shown c =>
       match c with
       | Player.CallUpdateVisible v => v
       | Player.CallAnimate _ => shown
       end)
    calls start.

(** * Properties *)

(** ** The two number models *)

(** The decimal constants of the source, as binary64 numbers: the doubles
    nearest to 0.27, 0.41 and 0.59, and the small integers themselves. *)
Example fconst_binary64 :
  fconst (F := float) 0.27 = 0x1.147ae147ae148p-2%float
  /\ fconst (F := float) 0.41 = 0x1.a3d70a3d70a3dp-2%float
  /\ fconst (F := float) 0.59 = 0x1.2e147ae147ae1p-1%float
  /\ fconst (F := float) 1.0 = 1%float
  /\ fconst (F := float) 255.0 = 255%float
  /\ fconst (F := float) 256 = 256%float.
Proof. repeat split. Qed.

(** [int(x)] drops the fraction, in both models. *)
Example int_of_float64_truncates :
  int_of_float64 (F := float) 255.75%float = 255
  /\ int_of_float64 (F := float) (-0.5)%float = 0
  /\ int_of_float64 (F := float) (-3.5)%float = -3
  /\ int_of_float64 (F := float) 256%float = 256
  /\ int_of_float64 (F := Q) 255.75%Q = 255
  /\ int_of_float64 (F := Q) (-0.5)%Q = 0
  /\ int_of_float64 (F := Q) (-3.5)%Q = -3
  /\ int_of_float64 (F := Q) 256%Q = 256.
Proof. repeat split. Qed.

(** ** Fixed-point arithmetic of [blend] *)

Lemma shiftr_8 (x : Z) : Z.shiftr x 8 = x / 256.
Proof. rewrite Z.shiftr_div_pow2 by lia. reflexivity. Qed.

Lemma uint_w_small (w x : Z) : 16 <= w -> 0 <= x < 65536 -> uint_w w x = x.
Proof.
  intros Hw Hx. unfold uint_w. apply Z.mod_small.
  assert (2 ^ 16 <= 2 ^ w) by (apply Z.pow_le_mono_r; lia).
  change (2 ^ 16) with 65536 in *. lia.
Qed.

Lemma uint8_small (x : Z) : is_uint8 x -> uint8 x = x.
Proof. intros Hx. unfold uint8. apply Z.mod_small. exact Hx. Qed.

(** A colour written out has byte channels. *)
Ltac valid_colour := unfold valid_RGBA, is_uint8; cbn [R G B A]; lia.

Lemma scaled_le (x a : Z) : is_uint8 x -> 0 <= a -> 0 <= (x * a) / 256 <= a.
Proof.
  intros [Hx0 Hx1] Ha. split.
  - apply Z.div_pos; nia.
  - apply Z.div_le_upper_bound; nia.
Qed.

Lemma background_weight_range (fa ba : Z) :
  is_uint8 fa -> is_uint8 ba -> 0 <= (ba * (255 - fa)) / 256 <= 255 - fa.
Proof.
  intros [Hf0 Hf1] Hb. apply scaled_le; [exact Hb | lia].
Qed.

Lemma blend_channel_range (f fa b ba : Z) :
  is_uint8 f -> is_uint8 fa -> is_uint8 b -> is_uint8 ba ->
  is_uint8 (blend_channel f fa b (Z.shiftr (ba * (255 - fa)) 8)).
Proof.
  intros Hf Hfa Hb Hba. unfold blend_channel. rewrite !shiftr_8.
  pose proof (background_weight_range fa ba Hfa Hba) as Hw.
  pose proof (scaled_le f fa Hf (proj1 Hfa)) as H1.
  pose proof (scaled_le b _ Hb (proj1 Hw)) as H2.
  unfold is_uint8 in *. lia.
Qed.

Lemma blend_w_channel (w f fa b ba : Z) :
  16 <= w -> is_uint8 f -> is_uint8 fa -> is_uint8 b -> is_uint8 ba ->
  let u := uint_w w in
  uint8 (u (Z.shiftr (u (u f * u fa)) 8
            + Z.shiftr (u (u b * Z.shiftr (u (u ba * u (255 - u fa))) 8)) 8))
  = blend_channel f fa b (Z.shiftr (ba * (255 - fa)) 8).
Proof.
  intros Hw Hf Hfa Hb Hba u. subst u.
  pose proof (blend_channel_range f fa b ba Hf Hfa Hb Hba) as Hc.
  pose proof (background_weight_range fa ba Hfa Hba) as Hbw.
  unfold blend_channel in *. rewrite !shiftr_8 in *.
  unfold is_uint8 in *.
  rewrite (uint_w_small w f), (uint_w_small w fa), (uint_w_small w b),
    (uint_w_small w ba) by lia.
  rewrite (uint_w_small w (255 - fa)) by lia.
  rewrite (uint_w_small w (f * fa)) by nia.
  rewrite (uint_w_small w (ba * (255 - fa))) by nia.
  rewrite (uint_w_small w (b * _)) by nia.
  rewrite uint_w_small by lia.
  apply Z.mod_small. lia.
Qed.

(** On colours whose channels are bytes no [uint] operation of [blend]
    wraps, whatever the width of [uint]. *)
Lemma blend_w_unfold (w : Z) (f b : RGBA) :
  16 <= w -> valid_RGBA f -> valid_RGBA b ->
  blend_w w f b =
  mkRGBA (blend_channel (R f) (A f) (R b) (background_weight f b))
         (blend_channel (G f) (A f) (G b) (background_weight f b))
         (blend_channel (B f) (A f) (B b) (background_weight f b))
         (A f).
Proof.
  intros Hw (HfR & HfG & HfB & HfA) (HbR & HbG & HbB & HbA).
  unfold blend_w, background_weight. cbv zeta beta iota.
  rewrite !blend_w_channel by assumption.
  rewrite (uint_w_small w (A f)) by (unfold is_uint8 in *; lia).
  rewrite uint8_small by assumption.
  reflexivity.
Qed.

Lemma blend_unfold (f b : RGBA) :
  valid_RGBA f -> valid_RGBA b ->
  blend f b =
  mkRGBA (blend_channel (R f) (A f) (R b) (background_weight f b))
         (blend_channel (G f) (A f) (G b) (background_weight f b))
         (blend_channel (B f) (A f) (B b) (background_weight f b))
         (A f).
Proof. intros Hf Hb. apply blend_w_unfold; [lia | assumption | assumption]. Qed.

(** [blend] gives the same colour on a 32-bit and on a 64-bit platform. *)
Lemma blend_w_width (w : Z) (f b : RGBA) :
  16 <= w -> valid_RGBA f -> valid_RGBA b -> blend_w w f b = blend f b.
Proof.
  intros Hw Hf Hb. rewrite blend_unfold by assumption.
  apply blend_w_unfold; assumption.
Qed.

Lemma blend_valid (f b : RGBA) :
  valid_RGBA f -> valid_RGBA b -> valid_RGBA (blend f b).
Proof.
  intros Hf Hb. rewrite blend_unfold by assumption.
  destruct Hf as (HfR & HfG & HfB & HfA), Hb as (HbR & HbG & HbB & HbA).
  unfold valid_RGBA, background_weight; cbn [R G B A].
  repeat split; try (apply blend_channel_range; assumption); apply HfA.
Qed.

(** ** Blend with a transparent or an opaque foreground *)

Lemma scaled_255 (x : Z) : is_uint8 x -> Z.shiftr (x * 255) 8 = if x =? 0 then 0 else x - 1.
Proof.
  intros [H0 H1]. rewrite shiftr_8.
  destruct (Z.eqb_spec x 0) as [-> | Hx]; [reflexivity |].
  symmetry. apply (Z.div_unique _ _ _ (256 - x)); lia.
Qed.

(** C2, as stated, fails: a transparent black foreground over opaque
    white gives (253, 253, 253, 0), not the background. *)
Lemma blend_transparent_not_identity :
  ~ (forall c base : RGBA,
        valid_RGBA c -> valid_RGBA base -> A c = 0 -> blend c base = base).
Proof.
  intros H.
  specialize (H (mkRGBA 0 0 0 0) (mkRGBA 255 255 255 255)).
  assert (E : blend (mkRGBA 0 0 0 0) (mkRGBA 255 255 255 255)
              = mkRGBA 253 253 253 0) by reflexivity.
  rewrite E in H.
  assert (mkRGBA 253 253 253 0 = mkRGBA 255 255 255 255) as Habs.
  { apply H; [valid_colour | valid_colour | reflexivity]. }
  discriminate Habs.
Qed.

(** C2, amended: with a foreground of alpha 0 the result does not depend
    on the foreground's red, green and blue; its alpha is 0; each colour
    channel is the background's scaled by [(base.alpha * 255) >> 8] over
    256, which is at most the background's; and the result is the
    background exactly when the background is (0, 0, 0, 0). *)
Theorem blend_transparent_foreground (c base : RGBA) :
  valid_RGBA c -> valid_RGBA base -> A c = 0 ->
  let weight := Z.shiftr (A base * 255) 8 in
  blend c base =
    mkRGBA (Z.shiftr (R base * weight) 8) (Z.shiftr (G base * weight) 8)
           (Z.shiftr (B base * weight) 8) 0
  /\ R (blend c base) <= R base
  /\ G (blend c base) <= G base
  /\ B (blend c base) <= B base
  /\ (blend c base = base <-> base = mkRGBA 0 0 0 0).
Proof.
  intros Hc Hb Ha weight.
  assert (E : blend c base =
    mkRGBA (Z.shiftr (R base * weight) 8) (Z.shiftr (G base * weight) 8)
           (Z.shiftr (B base * weight) 8) 0).
  { rewrite blend_unfold by assumption.
    unfold blend_channel, background_weight. rewrite Ha, !Z.mul_0_r.
    change (Z.shiftr 0 8) with 0. rewrite !Z.add_0_l, Z.sub_0_r.
    reflexivity. }
  destruct Hb as (HbR & HbG & HbB & HbA).
  assert (Hw : 0 <= weight <= 255).
  { subst weight. rewrite shiftr_8.
    replace (A base * 255) with (A base * (255 - 0)) by lia.
    apply background_weight_range; [unfold is_uint8; lia | assumption]. }
  assert (Hle : forall x, is_uint8 x -> Z.shiftr (x * weight) 8 <= x).
  { intros x [Hx0 Hx1]. rewrite shiftr_8. apply Z.div_le_upper_bound; nia. }
  rewrite E; cbn [R G B A].
  split; [reflexivity |].
  repeat (split; [apply Hle; assumption |]).
  split.
  - intros Heq. destruct base as [r g b a]; cbn [R G B A] in *.
    injection Heq as Hr Hg Hb' Halpha. subst a.
    assert (weight = 0) as Hw0 by (subst weight; reflexivity).
    rewrite Hw0, Z.mul_0_r in Hr, Hg, Hb'.
    change (Z.shiftr 0 8) with 0 in *. congruence.
  - intros ->. reflexivity.
Qed.

Lemma blend_transparent_foreground_witness :
  blend (mkRGBA 9 8 7 0) (mkRGBA 255 128 0 255) = mkRGBA 253 127 0 0.
Proof.
  refine (eq_trans
    (proj1 (blend_transparent_foreground (mkRGBA 9 8 7 0) (mkRGBA 255 128 0 255)
              _ _ eq_refl)) eq_refl);
    valid_colour.
Defined.

(** C3, as stated, fails: an opaque white foreground gives
    (254, 254, 254, 255), whose red is not the foreground's 255. *)
Lemma blend_opaque_not_foreground :
  ~ (forall c base : RGBA,
        valid_RGBA c -> valid_RGBA base -> A c = 255 ->
        R (blend c base) = R c /\ G (blend c base) = G c
        /\ B (blend c base) = B c /\ A (blend c base) = 255).
Proof.
  intros H.
  destruct (H (mkRGBA 255 255 255 255) (mkRGBA 0 0 0 0)) as [Hr _];
    [valid_colour | valid_colour | reflexivity |].
  discriminate Hr.
Qed.

(** C3, amended: with a foreground of alpha 255 the result does not
    depend on the background; its alpha is 255; each colour channel is the
    foreground's scaled by 255 over 256: one less than the foreground's
    channel, and 0 where that is 0. *)
Theorem blend_opaque_foreground (c base : RGBA) :
  valid_RGBA c -> valid_RGBA base -> A c = 255 ->
  let dim := fun x : Z => if x =? 0 then 0 else x - 1 in
  blend c base = mkRGBA (dim (R c)) (dim (G c)) (dim (B c)) 255
  /\ blend c base =
       mkRGBA (Z.shiftr (R c * 255) 8) (Z.shiftr (G c * 255) 8)
              (Z.shiftr (B c * 255) 8) 255.
Proof.
  intros Hc Hb Ha dim.
  assert (E : blend c base =
       mkRGBA (Z.shiftr (R c * 255) 8) (Z.shiftr (G c * 255) 8)
              (Z.shiftr (B c * 255) 8) 255).
  { rewrite blend_unfold by assumption.
    unfold blend_channel, background_weight. rewrite Ha.
    change (255 - 255) with 0. rewrite Z.mul_0_r.
    change (Z.shiftr 0 8) with 0. rewrite !Z.mul_0_r.
    change (Z.shiftr 0 8) with 0. rewrite !Z.add_0_r. reflexivity. }
  split; [| exact E].
  rewrite E. destruct Hc as (HcR & HcG & HcB & _).
  rewrite !scaled_255 by assumption. reflexivity.
Qed.

Lemma blend_opaque_foreground_witness :
  blend (mkRGBA 255 0 17 255) (mkRGBA 1 2 3 4) = mkRGBA 254 0 16 255.
Proof.
  refine (eq_trans
    (proj1 (blend_opaque_foreground (mkRGBA 255 0 17 255) (mkRGBA 1 2 3 4)
              _ _ eq_refl)) eq_refl);
    valid_colour.
Defined.

(** C9: the alpha of [blend]'s result is the foreground's alpha, whatever
    the background; the background's alpha enters the result only through
    the weight [(ba * (255 - fa)) >> 8] of its colour channels. *)
Theorem blend_alpha_is_foreground_alpha (foreground background : RGBA) :
  valid_RGBA foreground -> valid_RGBA background ->
  let weight := Z.shiftr (A background * (255 - A foreground)) 8 in
  A (blend foreground background) = A foreground
  /\ R (blend foreground background)
     = Z.shiftr (R foreground * A foreground) 8 + Z.shiftr (R background * weight) 8
  /\ G (blend foreground background)
     = Z.shiftr (G foreground * A foreground) 8 + Z.shiftr (G background * weight) 8
  /\ B (blend foreground background)
     = Z.shiftr (B foreground * A foreground) 8 + Z.shiftr (B background * weight) 8
  /\ (forall other : RGBA,
        valid_RGBA other ->
        R other = R background -> G other = G background ->
        B other = B background ->
        Z.shiftr (A other * (255 - A foreground)) 8 = weight ->
        blend foreground other = blend foreground background).
Proof.
  intros Hf Hb weight.
  rewrite (blend_unfold foreground background) by assumption.
  cbn [R G B A]. unfold blend_channel, background_weight. fold weight.
  repeat (split; [reflexivity |]).
  intros other Ho HR HG HB Hw.
  rewrite (blend_unfold foreground other) by assumption.
  unfold background_weight. rewrite Hw, HR, HG, HB. reflexivity.
Qed.

Lemma blend_alpha_is_foreground_alpha_witness :
  A (blend (mkRGBA 255 0 0 200) (mkRGBA 10 20 30 255)) = 200.
Proof.
  refine (proj1 (blend_alpha_is_foreground_alpha
                   (mkRGBA 255 0 0 200) (mkRGBA 10 20 30 255) _ _));
    valid_colour.
Defined.

(** ** Line and Player *)

Lemma le_f64_exact (x y : Q) : le_f64 x y <-> (x <= y)%Q.
Proof. unfold le_f64; cbn. apply Qle_bool_iff. Qed.

Lemma le_f64_binary64 (x y : float) : le_f64 x y <-> PrimFloat.leb x y = true.
Proof. unfold le_f64; cbn. reflexivity. Qed.

Lemma Line_ColorAt_inside {F : Type} `{Float64 F}
    (line : Line.t F) (p : F) (base : RGBA) :
  le_f64 (Line.leftEdge line) p -> le_f64 p (Line.rightEdge line) ->
  Line.ColorAt line p base = blend (Line.color line) base.
Proof.
  unfold le_f64, Line.ColorAt. intros Hl Hr. rewrite Hl, Hr. reflexivity.
Qed.

Lemma Line_ColorAt_outside {F : Type} `{Float64 F}
    (line : Line.t F) (p : F) (base : RGBA) :
  ~ (le_f64 (Line.leftEdge line) p /\ le_f64 p (Line.rightEdge line)) ->
  Line.ColorAt line p base = base.
Proof.
  unfold le_f64, Line.ColorAt. intros Hout.
  destruct (fle (Line.leftEdge line) p) eqn:Hl;
    destruct (fle p (Line.rightEdge line)) eqn:Hr; cbn [andb];
    try reflexivity.
  exfalso. apply Hout. split; reflexivity.
Qed.

(** X20: the [Line.ColorAt] with a pointer receiver (the second
    [package pong] listing; [package draw] has the same tests around
    [BlendWith]) is the line's colour blended over the base where
    [leftEdge <= position <= rightEdge], both ends included, and the base
    everywhere else. *)
Theorem Line_ColorAt_containment {F : Type} `{Float64 F}
    (line : Line.t F) (p : F) (base : RGBA) :
  (le_f64 (Line.leftEdge line) p /\ le_f64 p (Line.rightEdge line) ->
     Line.ColorAt line p base = blend (Line.color line) base)
  /\ (~ (le_f64 (Line.leftEdge line) p /\ le_f64 p (Line.rightEdge line)) ->
     Line.ColorAt line p base = base).
Proof.
  split.
  - intros [Hl Hr]. apply Line_ColorAt_inside; assumption.
  - apply Line_ColorAt_outside.
Qed.

Lemma Line_ColorAt_containment_witness :
  Line.ColorAt (Line.mk 0%Q 5%Q (mkRGBA 255 0 0 200) 10) 5%Q (mkRGBA 0 0 0 255)
  = blend (mkRGBA 255 0 0 200) (mkRGBA 0 0 0 255)
  /\ Line.ColorAt (Line.mk 0%Q 5%Q (mkRGBA 255 0 0 200) 10) 6%Q (mkRGBA 0 0 0 255)
     = mkRGBA 0 0 0 255.
Proof.
  split.
  - refine (proj1 (Line_ColorAt_containment
                     (Line.mk 0%Q 5%Q (mkRGBA 255 0 0 200) 10) 5%Q
                     (mkRGBA 0 0 0 255)) _).
    split; reflexivity.
  - refine (proj2 (Line_ColorAt_containment
                     (Line.mk 0%Q 5%Q (mkRGBA 255 0 0 200) 10) 6%Q
                     (mkRGBA 0 0 0 255)) _).
    intros [_ Hr]. discriminate Hr.
Defined.

(** The same over the rationals, with their order; both ends of a line
    that is not empty are on it. *)
Corollary Line_ColorAt_exact (line : Line.t Q) (p : Q) (base : RGBA) :
  ((Line.leftEdge line <= p <= Line.rightEdge line)%Q ->
     Line.ColorAt line p base = blend (Line.color line) base)
  /\ (~ (Line.leftEdge line <= p <= Line.rightEdge line)%Q ->
     Line.ColorAt line p base = base)
  /\ ((Line.leftEdge line <= Line.rightEdge line)%Q ->
     Line.ColorAt line (Line.leftEdge line) base = blend (Line.color line) base
     /\ Line.ColorAt line (Line.rightEdge line) base = blend (Line.color line) base).
Proof.
  split; [| split].
  - intros [Hl Hr]. apply Line_ColorAt_inside; apply le_f64_exact; assumption.
  - intros Hno. apply Line_ColorAt_outside. rewrite !le_f64_exact. exact Hno.
  - intros Hle. split; apply Line_ColorAt_inside; apply le_f64_exact;
      try exact Hle; apply Qle_refl.
Qed.

(** The [Line.ColorAt] with a value receiver (the first [package pong]
    listing) never blends, in any number model: it answers the line's
    colour as it is, or the base. *)
Lemma ValueLine_ColorAt_unblended {F : Type} `{Float64 F}
    (line : Line.t F) (p : F) (base : RGBA) :
  ValueLine.ColorAt line p base = Line.color line
  \/ ValueLine.ColorAt line p base = base.
Proof.
  unfold ValueLine.ColorAt.
  destruct ((Line.leftEdge line <? p) && (p <? Line.rightEdge line))%f64;
    [left | right]; reflexivity.
Qed.

(** Over the rationals its two ends are off the line, whatever the line. *)
Lemma ValueLine_ColorAt_ends (line : Line.t Q) (base : RGBA) :
  ValueLine.ColorAt line (Line.leftEdge line) base = base
  /\ ValueLine.ColorAt line (Line.rightEdge line) base = base.
Proof.
  unfold ValueLine.ColorAt. cbn [flt Exact].
  assert (Hirr : forall x : Q, Qltb x x = false).
  { intros x. unfold Qltb.
    assert (Qle_bool x x = true) as -> by (apply Qle_bool_iff; apply Qle_refl).
    reflexivity. }
  rewrite !Hirr, andb_false_r. split; reflexivity.
Qed.

(** C6, for the [Line.ColorAt] with a value receiver, on binary64 numbers:
    the red line from 0 to 5 over an opaque black base.  The positions 0,
    1 and 5 are on the line, ends included, and the line's colour blended
    over the base is (199, 0, 0, 200), which is what the pointer-receiver
    [Line.ColorAt] answers at all three.  The value-receiver method
    answers the base at both ends, and inside the line the colour
    (255, 0, 0, 200) as it is, not blended. *)
Theorem ValueLine_ColorAt_not_contained :
  let line := Line.mk 0%float 5%float (mkRGBA 255 0 0 200) 10 in
  let base := mkRGBA 0 0 0 255 in
  (le_f64 (Line.leftEdge line) 0%float /\ le_f64 0%float (Line.rightEdge line))
  /\ (le_f64 (Line.leftEdge line) 1%float /\ le_f64 1%float (Line.rightEdge line))
  /\ (le_f64 (Line.leftEdge line) 5%float /\ le_f64 5%float (Line.rightEdge line))
  /\ blend (Line.color line) base = mkRGBA 199 0 0 200
  /\ ValueLine.ColorAt line 0%float base = base
  /\ ValueLine.ColorAt line 1%float base = mkRGBA 255 0 0 200
  /\ ValueLine.ColorAt line 5%float base = base
  /\ Line.ColorAt line 0%float base = mkRGBA 199 0 0 200
  /\ Line.ColorAt line 1%float base = mkRGBA 199 0 0 200
  /\ Line.ColorAt line 5%float base = mkRGBA 199 0 0 200.
Proof. vm_compute. repeat split. Qed.

(** C8: a player that is not visible answers the base colour at every
    position. *)
Theorem Player_ColorAt_invisible {F : Type} `{Float64 F}
    (player : Player.t F) (position : F) (base : RGBA) :
  Player.visible player = false ->
  Player.ColorAt player position base = base.
Proof.
  intros Hv. unfold Player.ColorAt. rewrite Hv. reflexivity.
Qed.

Lemma Player_ColorAt_invisible_witness :
  Player.ColorAt
    (Player.mk (Line.mk 0%Q 5%Q (mkRGBA 255 0 0 200) 10) false)
    3%Q (mkRGBA 1 2 3 4)
  = mkRGBA 1 2 3 4.
Proof.
  exact (Player_ColorAt_invisible
           (Player.mk (Line.mk 0%Q 5%Q (mkRGBA 255 0 0 200) 10) false)
           3%Q (mkRGBA 1 2 3 4) eq_refl).
Defined.

(** The same paddle, once visible, does colour position 3. *)
Example Player_ColorAt_visible :
  Player.ColorAt
    (Player.mk (Line.mk 0%Q 5%Q (mkRGBA 255 0 0 200) 10) true)
    3%Q (mkRGBA 1 2 3 4)
  = mkRGBA 199 0 0 200.
Proof. reflexivity. Qed.

Lemma Player_step_visible {F : Type} `{Float64 F}
    (this : Player.t F) (c : Player.call F) :
  c <> Player.CallUpdateVisible true ->
  Player.visible this = false ->
  Player.visible (Player.step this c) = false.
Proof.
  intros Hc Hv. destruct c as [[|] | dt]; cbn.
  - contradiction Hc. reflexivity.
  - reflexivity.
  - exact Hv.
Qed.

Lemma Player_run_visible {F : Type} `{Float64 F}
    (calls : list (Player.call F)) :
  forall this : Player.t F,
    ~ In (Player.CallUpdateVisible true) calls ->
    Player.visible this = false ->
    Player.visible (Player.run this calls) = false.
Proof.
  induction calls as [| c calls IH]; intros this Hnot Hv.
  - exact Hv.
  - cbn [Player.run fold_left]. apply IH.
    + intros Hin. apply Hnot. right. exact Hin.
    + apply Player_step_visible; [| exact Hv].
      intros ->. apply Hnot. left. reflexivity.
Qed.

Lemma NewPlayer_visible {F : Type} `{Float64 F} (isLeft : bool) (width : Z) :
  Player.visible (Player.NewPlayer isLeft width) = false.
Proof. destruct isLeft; reflexivity. Qed.

(** C10: a player from [NewPlayer], left or right, is not visible, and
    as long as no call is [UpdateVisible(true)] it answers the base colour
    at every position. *)
Theorem NewPlayer_invisible_until_shown {F : Type} `{Float64 F}
    (isLeft : bool) (width : Z) (calls : list (Player.call F))
    (position : F) (base : RGBA) :
  ~ In (Player.CallUpdateVisible true) calls ->
  Player.visible (Player.NewPlayer isLeft width) = false
  /\ Player.ColorAt (Player.run (Player.NewPlayer isLeft width) calls)
       position base = base.
Proof.
  intros Hnot. split.
  - apply NewPlayer_visible.
  - unfold Player.ColorAt.
    rewrite Player_run_visible; [reflexivity | exact Hnot | apply NewPlayer_visible].
Qed.

Lemma NewPlayer_invisible_until_shown_witness :
  Player.ColorAt
    (Player.run (Player.NewPlayer (F := Q) true 100)
       [Player.CallAnimate 0.02%Q; Player.CallUpdateVisible false;
        Player.CallAnimate 0.02%Q])
    10%Q (mkRGBA 1 2 3 4)
  = mkRGBA 1 2 3 4.
Proof.
  refine (proj2 (NewPlayer_invisible_until_shown (F := Q) true 100
                   [Player.CallAnimate 0.02%Q; Player.CallUpdateVisible false;
                    Player.CallAnimate 0.02%Q]
                   10%Q (mkRGBA 1 2 3 4) _)).
  intros [Hin | [Hin | [Hin | []]]]; discriminate Hin.
Defined.

(** After [UpdateVisible(true)] the left paddle of a field of width 100
    does colour position 10. *)
Example NewPlayer_shown :
  Player.ColorAt
    (Player.run (Player.NewPlayer (F := Q) true 100)
       [Player.CallAnimate 0.02%Q; Player.CallUpdateVisible true])
    10%Q (mkRGBA 1 2 3 4)
  = mkRGBA 199 0 0 200.
Proof. reflexivity. Qed.

(** ** Ball: one call of [Animate] *)

Lemma Qltb_iff (x y : Q) : Qltb x y = true <-> (x < y)%Q.
Proof.
  unfold Qltb. rewrite negb_true_iff. split.
  - intros Hb. apply Qnot_le_lt. intros Hle.
    apply Qle_bool_iff in Hle. congruence.
  - intros Hlt. destruct (Qle_bool y x) eqn:Hb; [| reflexivity].
    apply Qle_bool_iff in Hb. exfalso. exact (Qlt_not_le _ _ Hlt Hb).
Qed.

Lemma Qltb_false_iff (x y : Q) : Qltb x y = false <-> (y <= x)%Q.
Proof.
  split.
  - intros Hb. apply Qnot_lt_le. intros Hlt.
    apply Qltb_iff in Hlt. congruence.
  - intros Hle. destruct (Qltb x y) eqn:Hb; [| reflexivity].
    apply Qltb_iff in Hb. exfalso. exact (Qlt_not_le _ _ Hb Hle).
Qed.

(** The three ways through [Animate], in every number model: on binary64
    numbers each operation of the landing position rounds. *)
Lemma Ball_Animate_reflects {F : Type} `{Float64 F} (b : Ball.t F) (dt : F) :
  let p := (Ball.position b + Ball.velocity b * dt)%f64 in
  let max := Ball.maxPosition b in
  Ball.Animate b dt =
    (if (p >? max)%f64 then
       Ball.mk (max - (p - max))%f64 (- Ball.velocity b)%f64 max (Ball.zindex b)
     else if (p <? fconst 0)%f64 then
       Ball.mk (- p)%f64 (- Ball.velocity b)%f64 max (Ball.zindex b)
     else Ball.mk p (Ball.velocity b) max (Ball.zindex b),
     true).
Proof.
  intros p max. unfold Ball.Animate.
  cbn [Ball.position Ball.velocity Ball.maxPosition Ball.zindex].
  fold p. fold max.
  destruct (flt max p); [reflexivity |].
  destruct (flt p (fconst 0)); reflexivity.
Qed.

(** The three ways through [Animate], over the rationals. *)
Lemma Ball_Animate_cases (b : Ball.t Q) (dt : Q) :
  let p := Ball_moved b dt in
  let max := Ball.maxPosition b in
  ((max < p)%Q /\
     Ball.Animate b dt =
       (Ball.mk (max - (p - max))%Q (- Ball.velocity b)%Q max (Ball.zindex b), true))
  \/ ((p <= max)%Q /\ (p < 0)%Q /\
     Ball.Animate b dt =
       (Ball.mk (- p)%Q (- Ball.velocity b)%Q max (Ball.zindex b), true))
  \/ ((p <= max)%Q /\ (0 <= p)%Q /\
     Ball.Animate b dt =
       (Ball.mk p (Ball.velocity b) max (Ball.zindex b), true)).
Proof.
  intros p max. unfold Ball.Animate.
  cbn [Ball.position Ball.velocity Ball.maxPosition Ball.zindex
       fadd fmul fsub fneg flt fconst Exact].
  fold (Ball_moved b dt). fold p. fold max.
  destruct (Qltb max p) eqn:Hhi.
  - left. apply Qltb_iff in Hhi. split; [exact Hhi | reflexivity].
  - apply Qltb_false_iff in Hhi. right.
    destruct (Qltb p 0) eqn:Hlo.
    + left. apply Qltb_iff in Hlo. repeat split; assumption.
    + right. apply Qltb_false_iff in Hlo. repeat split; assumption.
Qed.

(** [Animate] keeps going and leaves the walls and the layer alone. *)
Lemma Ball_Animate_frame {F : Type} `{Float64 F} (b : Ball.t F) (dt : F) :
  snd (Ball.Animate b dt) = true
  /\ Ball.maxPosition (fst (Ball.Animate b dt)) = Ball.maxPosition b
  /\ Ball.zindex (fst (Ball.Animate b dt)) = Ball.zindex b.
Proof.
  unfold Ball.Animate. cbn [fst snd Ball.position Ball.maxPosition Ball.velocity Ball.zindex].
  repeat match goal with |- context [if ?c then _ else _] => destruct c end;
    repeat split.
Qed.

(** C5: [Animate] first computes [position + velocity * dt].  When that
    tests above [maxPosition], exceeding it by
    [delta = moved - maxPosition], the ball is left at
    [maxPosition - delta] with its velocity negated; when it tests below 0,
    by [delta = - moved], the ball is left at [delta] with its velocity
    negated: a mirror image, not a clamp.  Otherwise the ball is left where
    the move took it, with its velocity.  This holds in every number model;
    on binary64 numbers [moved], [delta] and the landing are the rounded
    values the program holds.  (That [delta] is at most [maxPosition] is
    not needed here: it is what keeps the landing on the field.) *)
Theorem Ball_Animate_mirror {F : Type} `{Float64 F} (b : Ball.t F) (dt : F) :
  let moved := Ball_move b dt in
  let max := Ball.maxPosition b in
  let after := fst (Ball.Animate b dt) in
  ((moved >? max)%f64 = true ->
     let delta := (moved - max)%f64 in
     Ball.position after = (max - delta)%f64
     /\ Ball.velocity after = (- Ball.velocity b)%f64)
  /\ ((moved >? max)%f64 = false -> (moved <? fconst 0)%f64 = true ->
     let delta := (- moved)%f64 in
     Ball.position after = delta
     /\ Ball.velocity after = (- Ball.velocity b)%f64)
  /\ ((moved >? max)%f64 = false -> (moved <? fconst 0)%f64 = false ->
     Ball.position after = moved
     /\ Ball.velocity after = Ball.velocity b).
Proof.
  intros moved max after. subst after.
  rewrite (Ball_Animate_reflects b dt).
  fold (Ball_move b dt). fold moved. fold max. cbn [fst].
  split; [| split].
  - intros Hhi. rewrite Hhi. split; reflexivity.
  - intros Hhi Hlo. rewrite Hhi, Hlo. split; reflexivity.
  - intros Hhi Hlo. rewrite Hhi, Hlo. split; reflexivity.
Qed.

(** On binary64 numbers: from 90 at 33 per second, one second ends at
    123, 24 beyond the wall at 99, and the ball is left at 75. *)
Lemma Ball_Animate_mirror_witness :
  Ball.position (fst (Ball.Animate (Ball.mk 90%float 33%float 99%float 100%Z) 1%float))
  = 75%float
  /\ Ball.velocity (fst (Ball.Animate (Ball.mk 90%float 33%float 99%float 100%Z) 1%float))
     = (-33)%float.
Proof.
  exact (proj1 (Ball_Animate_mirror (Ball.mk 90%float 33%float 99%float 100%Z) 1%float)
           eq_refl).
Defined.

(** A move that ends exactly on a wall is not beyond it: the velocity is
    kept. *)
Example Ball_Animate_on_the_wall :
  Ball.Animate (Ball.mk 90%Q 9%Q 99%Q 100) 1%Q = (Ball.mk 99%Q 9%Q 99%Q 100, true)
  /\ Ball.Animate (Ball.mk 9%Q (-9)%Q 99%Q 100) 1%Q = (Ball.mk 0%Q (-9)%Q 99%Q 100, true).
Proof. split; reflexivity. Qed.

(** The two number models part where a move ends within a rounding error
    of a wall.  The ball of [NewBall(10)] has the binary64 velocity nearest
    to 10/3, a little above it.  From position 6 a frame of 0.9 s, as
    binary64 holds it, would end about 2e-16 beyond the wall at 9 if
    nothing rounded; the program's sum is 9 exactly, which does not test
    beyond the wall, and the velocity is kept.  On the same rationals the
    move tests beyond the wall and the velocity is negated. *)
Example Ball_Animate_rounds_onto_the_wall :
  let v := 0x1.aaaaaaaaaaaabp+1%float in
  let dt := 0x1.ccccccccccccdp-1%float in
  let vq := (7505999378950827 # 2251799813685248)%Q in
  let dtq := (8106479329266893 # 9007199254740992)%Q in
  Ball.velocity (Ball.NewBall (F := float) 10) = v
  /\ fconst (F := float) 0.9 = dt
  /\ Ball.Animate (Ball.mk 6%float v 9%float 100) dt = (Ball.mk 9%float v 9%float 100, true)
  /\ Ball_beyond_a_wall (Ball.mk 6%float v 9%float 100) dt = false
  /\ Ball_beyond_a_wall (Ball.mk 6%Q vq 9%Q 100) dtq = true
  /\ (Ball.velocity (fst (Ball.Animate (Ball.mk 6%Q vq 9%Q 100%Z) dtq)) == - vq)%Q.
Proof. vm_compute. repeat split. Qed.

(** ** Ball: a sequence of [Animate] calls *)

(** C1, as stated, fails: from position 0 with velocity 10 on a field
    with [maxPosition] 9, one call with [dt = 3] moves the ball to 30 and
    reflects it to -12, off the field. *)
Lemma Ball_leaves_the_field :
  ~ (forall (b : Ball.t Q) (dts : list Q),
        Ball_in_bounds b -> ~ (Ball.velocity b == 0)%Q ->
        Forall (fun dt => 0 < dt)%Q dts ->
        Forall (fun step => Ball_in_bounds (snd step)) (Ball.steps b dts)).
Proof.
  intros H.
  specialize (H (Ball.mk 0%Q 10%Q 9%Q 100) [3%Q]).
  assert (Hs : Ball.steps (Ball.mk 0%Q 10%Q 9%Q 100) [3%Q]
               = [(Ball.mk 0%Q 10%Q 9%Q 100, 3%Q, Ball.mk (-12)%Q (-10)%Q 9%Q 100)])
    by reflexivity.
  rewrite Hs in H.
  assert (Hall : Forall (fun step : Ball.t Q * Q * Ball.t Q => Ball_in_bounds (snd step))
                   [(Ball.mk 0%Q 10%Q 9%Q 100, 3%Q, Ball.mk (-12)%Q (-10)%Q 9%Q 100)]).
  { apply H.
    - unfold Ball_in_bounds; cbn [Ball.position Ball.maxPosition]. lra.
    - cbn [Ball.velocity]. lra.
    - repeat constructor. }
  inversion Hall as [| step rest Hin _]; subst.
  unfold Ball_in_bounds in Hin; cbn [snd Ball.position Ball.maxPosition] in Hin.
  lra.
Qed.

(** The same call on binary64 numbers, where every value of it is exact. *)
Example Ball_escapes_binary64 :
  Ball.Animate (Ball.mk 0%float 10%float 9%float 100) 3%float
  = (Ball.mk (-12)%float (-10)%float 9%float 100, true).
Proof. reflexivity. Qed.

Lemma Qabs_bound (v dt max : Q) :
  (0 < dt)%Q -> (Qabs v * dt <= max)%Q -> (- max <= v * dt <= max)%Q.
Proof.
  intros Hdt. apply (Qabs_case v (fun a => a * dt <= max -> - max <= v * dt <= max)%Q).
  - intros Hv Hb. assert (0 <= v * dt)%Q by (apply Qmult_le_0_compat; lra). lra.
  - intros Hv Hb.
    assert (0 <= (- v) * dt)%Q by (apply Qmult_le_0_compat; lra).
    assert (- v * dt == - (v * dt))%Q as E by ring.
    rewrite E in *. lra.
Qed.

(** One call whose move is no longer than the field leaves the ball on
    the field, at the same speed. *)
Lemma Ball_Animate_in_bounds (b : Ball.t Q) (dt : Q) :
  Ball_in_bounds b -> (0 < dt)%Q ->
  (Qabs (Ball.velocity b) * dt <= Ball.maxPosition b)%Q ->
  Ball_in_bounds (fst (Ball.Animate b dt))
  /\ (Qabs (Ball.velocity (fst (Ball.Animate b dt))) == Qabs (Ball.velocity b))%Q.
Proof.
  intros [Hp0 Hp1] Hdt Hb.
  pose proof (Qabs_bound _ _ _ Hdt Hb) as [Hm0 Hm1].
  unfold Ball_in_bounds.
  destruct (Ball_Animate_cases b dt) as [[Hhi E] | [[Hle [Hlo E]] | [Hle [Hlo E]]]];
    rewrite E; unfold Ball_moved in *;
    cbn [fst Ball.position Ball.velocity Ball.maxPosition];
    repeat split; try reflexivity; try lra; apply Qabs_opp.
Qed.

Lemma Ball_steps_in_bounds (dts : list Q) :
  forall b : Ball.t Q,
    Ball_in_bounds b ->
    Forall (fun dt => 0 < dt /\ Qabs (Ball.velocity b) * dt <= Ball.maxPosition b)%Q dts ->
    Forall (fun step => Ball_in_bounds (snd step)) (Ball.steps b dts).
Proof.
  induction dts as [| dt dts IH]; intros b Hin Hall; cbn [Ball.steps].
  - constructor.
  - inversion Hall as [| dt' dts' [Hdt Hb] Hrest]; subst.
    destruct (Ball_Animate_in_bounds b dt Hin Hdt Hb) as [Hstep Habs].
    constructor; [exact Hstep |].
    apply IH.
    + exact Hstep.
    + destruct (Ball_Animate_frame b dt) as (_ & Hmax & _).
      rewrite Hmax. revert Hrest. apply Forall_impl.
      intros d [Hd0 Hd1]. split; [exact Hd0 |]. rewrite Habs. exact Hd1.
Qed.

Lemma Ball_steps_nonzero (dts : list Q) :
  forall b : Ball.t Q,
    ~ (Ball.velocity b == 0)%Q ->
    Forall (fun step => ~ (Ball.velocity (snd step) == 0)%Q) (Ball.steps b dts).
Proof.
  induction dts as [| dt dts IH]; intros b Hv; cbn [Ball.steps].
  - constructor.
  - assert (Hv' : ~ (Ball.velocity (fst (Ball.Animate b dt)) == 0)%Q).
    { destruct (Ball_Animate_cases b dt) as [[_ E] | [(_ & _ & E) | (_ & _ & E)]];
        rewrite E; cbn [fst Ball.velocity]; lra. }
    constructor; [exact Hv' | apply IH; exact Hv'].
Qed.

(** In every number model a call negates the velocity exactly when the
    position it computed tested beyond a wall. *)
Lemma Ball_Animate_flipped {F : Type} `{Float64 F} (b : Ball.t F) (dt : F) :
  Ball_flipped (b, dt, fst (Ball.Animate b dt)).
Proof.
  unfold Ball_flipped, Ball_beyond_a_wall.
  rewrite (Ball_Animate_reflects b dt). fold (Ball_move b dt). cbn [fst].
  destruct (flt (Ball.maxPosition b) (Ball_move b dt)); [reflexivity |].
  destruct (flt (Ball_move b dt) (fconst 0)); reflexivity.
Qed.

Lemma Ball_steps_flipped {F : Type} `{Float64 F} (dts : list F) :
  forall b : Ball.t F, Forall Ball_flipped (Ball.steps b dts).
Proof.
  induction dts as [| dt dts IH]; intros b; cbn [Ball.steps].
  - constructor.
  - constructor; [apply Ball_Animate_flipped | apply IH].
Qed.

(** C1, amended.  From a ball on the field with a velocity that is not 0,
    through calls of [Animate] whose [dt] is positive and whose move
    [|velocity| * dt] is no longer than [maxPosition], every call leaves
    the ball on the field, with a velocity that is not 0.  ([maxPosition]
    is the [float64] of an [int], at most 2^63: twice it is far from the
    largest binary64 number.)  And in every number model, whatever the
    calls, each call negates the velocity if the position it computed
    tested beyond a wall, and keeps it if not. *)
Theorem Ball_stays_on_the_field :
  (forall (b : Ball.t Q) (dts : list Q),
      Ball_in_bounds b -> ~ (Ball.velocity b == 0)%Q ->
      (Ball.maxPosition b <= inject_Z (2 ^ 63))%Q ->
      Forall (fun dt => 0 < dt /\ Qabs (Ball.velocity b) * dt <= Ball.maxPosition b)%Q dts ->
      Forall (fun step => Ball_in_bounds (snd step)
                          /\ ~ (Ball.velocity (snd step) == 0)%Q)
             (Ball.steps b dts))
  /\ (forall (F : Type) (F64 : Float64 F) (b : Ball.t F) (dts : list F),
      Forall Ball_flipped (Ball.steps b dts)).
Proof.
  split.
  - intros b dts Hin Hv _ Hall.
    pose proof (Ball_steps_in_bounds dts b Hin Hall) as Hb.
    pose proof (Ball_steps_nonzero dts b Hv) as Hn.
    apply Forall_forall. intros step Hstep. split.
    + exact (proj1 (Forall_forall _ _) Hb step Hstep).
    + exact (proj1 (Forall_forall _ _) Hn step Hstep).
  - intros F F64 b dts. apply Ball_steps_flipped.
Qed.

Lemma Ball_stays_on_the_field_witness :
  Forall (fun step => Ball_in_bounds (snd step) /\ ~ (Ball.velocity (snd step) == 0)%Q)
    (Ball.steps (Ball.mk 90%Q 33%Q 99%Q 100) [1%Q; 3%Q; 0.5%Q])
  /\ Forall Ball_flipped
       (Ball.steps (Ball.mk 90%float 33%float 99%float 100) [1%float; 3%float; 0.5%float]).
Proof.
  split.
  - refine (proj1 Ball_stays_on_the_field (Ball.mk 90%Q 33%Q 99%Q 100)
              [1%Q; 3%Q; 0.5%Q] _ _ _ _).
    + unfold Ball_in_bounds; cbn [Ball.position Ball.maxPosition]. lra.
    + cbn [Ball.velocity]. lra.
    + cbn [Ball.maxPosition]. discriminate.
    + cbn [Ball.velocity Ball.maxPosition].
      repeat constructor; try reflexivity; discriminate.
  - exact (proj2 Ball_stays_on_the_field float Binary64
             (Ball.mk 90%float 33%float 99%float 100) [1%float; 3%float; 0.5%float]).
Defined.

(** The ball of [NewBall(10)] through four frames of 0.9 s on binary64
    numbers: 3, 6, then 9, on the wall with its velocity kept, then back
    to 6 with the velocity negated. *)
Example NewBall_frames_binary64 :
  let v := 0x1.aaaaaaaaaaaabp+1%float in
  let dt := fconst (F := float) 0.9 in
  map snd (Ball.steps (Ball.NewBall (F := float) 10) [dt; dt; dt; dt])
  = [Ball.mk 3%float v 9%float 100; Ball.mk 6%float v 9%float 100;
     Ball.mk 9%float v 9%float 100; Ball.mk 6%float (- v)%float 9%float 100].
Proof. vm_compute. reflexivity. Qed.

(** ** Ball: the dot *)

Lemma Qtrunc_floor (x : Q) : (0 <= x)%Q -> Qtrunc x = Qfloor x.
Proof.
  destruct x as [n d]. unfold Qle, Qtrunc, Qfloor; cbn [Qnum Qden].
  intros Hx. apply Z.quot_div_nonneg; lia.
Qed.

Lemma Qtrunc_comp (x y : Q) : (0 <= x)%Q -> (x == y)%Q -> Qtrunc x = Qtrunc y.
Proof.
  intros Hx E. rewrite !Qtrunc_floor by (try rewrite <- E; exact Hx).
  apply Qfloor_comp. exact E.
Qed.

Lemma Qtrunc_le (x y : Q) : (0 <= x)%Q -> (x <= y)%Q -> Qtrunc x <= Qtrunc y.
Proof.
  intros Hx Hxy. rewrite !Qtrunc_floor by lra.
  apply Qfloor_resp_le. exact Hxy.
Qed.

Lemma Qtrunc_byte (x : Q) : (0 <= x <= 255)%Q -> is_uint8 (Qtrunc x).
Proof.
  intros [H0 H1]. unfold is_uint8.
  pose proof (Qtrunc_le 0 x (Qle_refl 0) H0) as Hlo.
  pose proof (Qtrunc_le x 255 H0 H1) as Hhi.
  change (Qtrunc 0) with 0 in Hlo. change (Qtrunc 255) with 255 in Hhi. lia.
Qed.

(** The alpha of [blend]'s result needs nothing of the background. *)
Lemma blend_alpha (f b : RGBA) : is_uint8 (A f) -> A (blend f b) = A f.
Proof.
  intros Ha. unfold blend, blend_w; cbn [A].
  rewrite uint_w_small by (unfold is_uint8 in Ha; lia).
  apply uint8_small. exact Ha.
Qed.

(** The alpha [Ball.ColorAt] gives the dot at a distance below 1, over the
    rationals: a byte, the floor of the exact product. *)
Lemma Ball_dot_alpha (distance : Q) :
  (0 <= distance < 1)%Q ->
  is_uint8 (Qtrunc ((1.0 - distance) * 255.0))
  /\ Qtrunc ((1.0 - distance) * 255.0) = Qfloor ((1 - distance) * 255).
Proof.
  intros [H0 H1].
  assert (E : ((1.0 - distance) * 255.0 == (1 - distance) * 255)%Q) by ring.
  assert (0 <= (1 - distance) * 255 <= 255)%Q as Hr by lra.
  split.
  - apply Qtrunc_byte. rewrite E. exact Hr.
  - assert (0 <= (1.0 - distance) * 255.0)%Q as Hx by (rewrite E; apply Hr).
    rewrite (Qtrunc_comp _ _ Hx E).
    apply Qtrunc_floor. lra.
Qed.

(** Over the rationals.  On binary64 numbers the difference and the
    product are rounded before the fraction is dropped, and the alpha can
    be one more or one less ([Ball_ColorAt_rounds]). *)
Lemma Ball_ColorAt_near (b : Ball.t Q) (p : Q) (base : RGBA) :
  (Qabs (p - Ball.position b) < 1)%Q ->
  Ball.ColorAt b p base =
  blend (mkRGBA 255 255 255 (Qfloor ((1 - Qabs (p - Ball.position b)) * 255))) base.
Proof.
  intros Hd. unfold Ball.ColorAt.
  cbn [fabs fsub flt fconst fmul Exact int_of_float64].
  apply Qltb_iff in Hd. rewrite Hd.
  apply Qltb_iff in Hd.
  destruct (Ball_dot_alpha (Qabs (p - Ball.position b))) as [Hbyte Hfloor].
  { split; [apply Qabs_nonneg | exact Hd]. }
  rewrite uint8_small by exact Hbyte. rewrite Hfloor. reflexivity.
Qed.

Lemma Ball_ColorAt_near_alpha (b : Ball.t Q) (p : Q) (base : RGBA) :
  (Qabs (p - Ball.position b) < 1)%Q ->
  A (Ball.ColorAt b p base) = Qfloor ((1 - Qabs (p - Ball.position b)) * 255).
Proof.
  intros Hd. rewrite (Ball_ColorAt_near b p base Hd).
  rewrite blend_alpha; [reflexivity |]. cbn [A].
  destruct (Ball_dot_alpha (Qabs (p - Ball.position b))) as [Hbyte Hfloor].
  - split; [apply Qabs_nonneg | exact Hd].
  - rewrite <- Hfloor. exact Hbyte.
Qed.

(** The two branches of [Ball.ColorAt], in every number model: the alpha
    of the dot is [uint8((1.0 - distance) * 255.0)], each operation the
    model's, and it is the alpha of the colour returned. *)
Lemma Ball_ColorAt_branches {F : Type} `{Float64 F}
    (b : Ball.t F) (p : F) (base : RGBA) :
  let distance := fabs (p - Ball.position b)%f64 in
  let alpha := uint8 (int_of_float64 ((fconst 1.0 - distance) * fconst 255.0)%f64) in
  ((distance <? fconst 1)%f64 = false -> Ball.ColorAt b p base = base)
  /\ ((distance <? fconst 1)%f64 = true ->
        Ball.ColorAt b p base = blend (mkRGBA 255 255 255 alpha) base
        /\ A (Ball.ColorAt b p base) = alpha
        /\ 0 <= alpha <= 255).
Proof.
  intros distance alpha.
  assert (Hbyte : is_uint8 alpha).
  { unfold alpha, uint8, is_uint8. apply Z.mod_pos_bound. lia. }
  unfold Ball.ColorAt. fold distance. fold alpha.
  split; intros Hd; rewrite Hd; [reflexivity |].
  split; [reflexivity |]. split.
  - apply blend_alpha. exact Hbyte.
  - unfold is_uint8 in Hbyte. lia.
Qed.

(** C7: where the distance [|p - position|] does not test below 1,
    [Ball.ColorAt] answers the base; where it does, it answers white
    blended over the base with alpha [(1 - distance) * 255], converted to a
    byte (the fraction is dropped), which is the alpha of the answer; this
    in every number model, with the model's operations.  Over the
    rationals: the base at a distance of 1 or more, alpha 255 at distance
    0, and an alpha that is no larger at a larger distance.  On binary64
    numbers too the alpha is 255 where the distance is 0. *)
Theorem Ball_ColorAt_falloff :
  (forall (F : Type) (F64 : Float64 F) (b : Ball.t F) (p : F) (base : RGBA),
      let distance := fabs (p - Ball.position b)%f64 in
      let alpha := uint8 (int_of_float64 ((fconst 1.0 - distance) * fconst 255.0)%f64) in
      ((distance <? fconst 1)%f64 = false -> Ball.ColorAt b p base = base)
      /\ ((distance <? fconst 1)%f64 = true ->
            Ball.ColorAt b p base = blend (mkRGBA 255 255 255 alpha) base
            /\ A (Ball.ColorAt b p base) = alpha
            /\ 0 <= alpha <= 255))
  /\ (forall (b : Ball.t Q) (p : Q) (base : RGBA),
      let distance := Qabs (p - Ball.position b) in
      ((1 <= distance)%Q -> Ball.ColorAt b p base = base)
      /\ ((distance == 0)%Q ->
            Ball.ColorAt b p base = blend (mkRGBA 255 255 255 255) base
            /\ A (Ball.ColorAt b p base) = 255)
      /\ (forall q : Q,
            (distance <= Qabs (q - Ball.position b) < 1)%Q ->
            A (Ball.ColorAt b q base) <= A (Ball.ColorAt b p base)))
  /\ (forall (b : Ball.t float) (p : float) (base : RGBA),
      fabs (p - Ball.position b)%f64 = 0%float ->
      Ball.ColorAt b p base = blend (mkRGBA 255 255 255 255) base).
Proof.
  split; [| split].
  - intros F F64 b p base. apply Ball_ColorAt_branches.
  - intros b p base distance. split; [| split].
    + intros Hfar.
      refine (proj1 (Ball_ColorAt_branches b p base) _).
      cbn [fabs fsub flt fconst Exact]. fold distance.
      apply Qltb_false_iff. exact Hfar.
    + intros Hzero.
      assert (Hd : (distance < 1)%Q) by (rewrite Hzero; reflexivity).
      assert (E : Qfloor ((1 - distance) * 255) = 255).
      { refine (Qfloor_comp _ 255 _). rewrite Hzero. ring. }
      split.
      * rewrite (Ball_ColorAt_near b p base Hd). fold distance. rewrite E. reflexivity.
      * rewrite (Ball_ColorAt_near_alpha b p base Hd). fold distance. exact E.
    + intros q [Hle Hq].
      assert (Hd : (distance < 1)%Q) by lra.
      rewrite (Ball_ColorAt_near_alpha b p base Hd).
      rewrite (Ball_ColorAt_near_alpha b q base Hq).
      apply Qfloor_resp_le. fold distance. lra.
  - intros b p base Hzero. unfold Ball.ColorAt. rewrite Hzero. reflexivity.
Qed.

Lemma Ball_ColorAt_falloff_witness :
  Ball.ColorAt (Ball.mk 5%Q 10%Q 9%Q 100) 6%Q (mkRGBA 0 0 0 255) = mkRGBA 0 0 0 255
  /\ A (Ball.ColorAt (Ball.mk 5%float 10%float 9%float 100) 5.5%float (mkRGBA 0 0 0 255))
     = 127
  /\ Ball.ColorAt (Ball.mk 5%float 10%float 9%float 100) 5%float (mkRGBA 0 0 0 255)
     = blend (mkRGBA 255 255 255 255) (mkRGBA 0 0 0 255).
Proof.
  split; [| split].
  - refine (proj1 (proj1 (proj2 Ball_ColorAt_falloff)
                     (Ball.mk 5%Q 10%Q 9%Q 100) 6%Q (mkRGBA 0 0 0 255)) _).
    discriminate.
  - exact (proj1 (proj2 (proj2 (proj1 Ball_ColorAt_falloff float Binary64
                                   (Ball.mk 5%float 10%float 9%float 100) 5.5%float
                                   (mkRGBA 0 0 0 255))
                          eq_refl))).
  - exact (proj2 (proj2 Ball_ColorAt_falloff)
             (Ball.mk 5%float 10%float 9%float 100) 5%float (mkRGBA 0 0 0 255) eq_refl).
Defined.

(** The dot of a ball at 5 over an opaque black strip, on the rationals
    and on binary64 numbers: full at 5, half at 5.5, absent at 6. *)
Example Ball_ColorAt_dot :
  let base := mkRGBA 0 0 0 255 in
  Ball.ColorAt (Ball.mk 5%Q 10%Q 9%Q 100) 5%Q base = mkRGBA 254 254 254 255
  /\ Ball.ColorAt (Ball.mk 5%Q 10%Q 9%Q 100) 5.5%Q base = mkRGBA 126 126 126 127
  /\ Ball.ColorAt (Ball.mk 5%Q 10%Q 9%Q 100) 6%Q base = base
  /\ Ball.ColorAt (Ball.mk 5%float 10%float 9%float 100) 5%float base = mkRGBA 254 254 254 255
  /\ Ball.ColorAt (Ball.mk 5%float 10%float 9%float 100) 5.5%float base = mkRGBA 126 126 126 127
  /\ Ball.ColorAt (Ball.mk 5%float 10%float 9%float 100) 6%float base = base.
Proof. repeat split. Qed.

(** Where rounding shows: the ball of [NewBall(3)] after [Animate(0.2)] is
    at the binary64 number nearest to 0.2, a little above it.  At position
    0 the program's [1 - distance] rounds to the binary64 0.8 and the
    product to 204; the exact product of the same numbers is a little below
    204, and its floor is 203. *)
Example Ball_ColorAt_rounds :
  let at_02 := 0x1.999999999999ap-3%float in
  let base := mkRGBA 0 0 0 255 in
  fst (Ball.Animate (Ball.NewBall (F := float) 3) (fconst 0.2))
  = Ball.mk at_02 1%float 2%float 100
  /\ A (Ball.ColorAt (Ball.mk at_02 1%float 2%float 100) 0%float base) = 204
  /\ A (Ball.ColorAt
          (Ball.mk (3602879701896397 # 18014398509481984)%Q 1%Q 2%Q 100) 0%Q base)
     = 203.
Proof. vm_compute. repeat split. Qed.

(** ** Sinusoid: the table and its index *)

Lemma list_set_length {T : Type} (s : list T) :
  forall (n : nat) (v : T), length (list_set s n v) = length s.
Proof.
  induction s as [| x s IH]; intros [| n] v; cbn [list_set length];
    try reflexivity.
  rewrite IH. reflexivity.
Qed.

Lemma slice_set_length {T : Type} (s : list T) (i : Z) (v : T) :
  length (slice_set s i v) = length s.
Proof.
  unfold slice_set. destruct (0 <=? i); [apply list_set_length | reflexivity].
Qed.

Lemma fold_left_length {T X : Type} (f : list T -> X -> list T) :
  (forall s x, length (f s x) = length s) ->
  forall (xs : list X) (s : list T), length (fold_left f xs s) = length s.
Proof.
  intros Hf xs. induction xs as [| x xs IH]; intros s; cbn [fold_left].
  - reflexivity.
  - rewrite IH. apply Hf.
Qed.

Lemma slice_get_in_range {T : Type} (s : list T) (i : Z) :
  0 <= i < Z.of_nat (length s) -> exists v, slice_get s i = Some v.
Proof.
  intros [Hi0 Hi1]. unfold slice_get.
  replace ((0 <=? i) && (i <? Z.of_nat (length s))) with true
    by (symmetry; apply andb_true_iff; split;
        [apply Z.leb_le | apply Z.ltb_lt]; assumption).
  destruct (nth_error s (Z.to_nat i)) as [v |] eqn:E.
  - exists v. reflexivity.
  - apply nth_error_None in E. lia.
Qed.

Lemma slice_get_out_of_range {T : Type} (s : list T) (i : Z) :
  i < 0 \/ Z.of_nat (length s) <= i -> slice_get s i = None.
Proof.
  intros Hi. unfold slice_get.
  destruct (0 <=? i) eqn:H0; [| reflexivity].
  destruct (i <? Z.of_nat (length s)) eqn:H1; [| reflexivity].
  apply Z.leb_le in H0. apply Z.ltb_lt in H1. lia.
Qed.

(** The table has 256 entries from construction on, whatever [math.Sin]
    returns. *)
Lemma Sinusoid_table_length {F : Type} `{Float64 F}
    (math_Sin : F -> F) (math_Pi : F) (width : Z) (zindex : ZIndex)
    (dts : list F) :
  length (Sinusoid.sineLookup
            (Sinusoid.run (Sinusoid.NewSinusoid math_Sin math_Pi width zindex) dts))
  = 256%nat.
Proof.
  assert (Hrun : forall (s : Sinusoid.t F),
            Sinusoid.sineLookup (Sinusoid.run s dts) = Sinusoid.sineLookup s).
  { unfold Sinusoid.run. induction dts as [| dt dts IH]; intros s; cbn [fold_left].
    - reflexivity.
    - rewrite IH. reflexivity. }
  rewrite Hrun. unfold Sinusoid.NewSinusoid, Sinusoid.buildLookup.
  cbn [Sinusoid.sineLookup].
  rewrite fold_left_length.
  - apply repeat_length.
  - intros s x. apply slice_set_length.
Qed.

Lemma Qtrunc_range (y : Q) (lo hi : Z) :
  0 <= lo -> (inject_Z lo <= y < inject_Z hi)%Q -> lo <= Qtrunc y < hi.
Proof.
  intros Hlo [Hy0 Hy1].
  assert (0 <= y)%Q as Hy.
  { apply Qle_trans with (inject_Z lo); [| exact Hy0].
    change 0%Q with (inject_Z 0). rewrite <- Zle_Qle. exact Hlo. }
  rewrite Qtrunc_floor by exact Hy. split.
  - rewrite <- (Qfloor_Z lo). apply Qfloor_resp_le. exact Hy0.
  - rewrite Zlt_Qlt. apply Qle_lt_trans with y; [apply Qfloor_le | exact Hy1].
Qed.

(** Over the rationals: the index is within the table for a phase in
    [[0, 1)] and in [(1, 2)]; at phase 1, which the test [> 1] leaves as it
    is, it is 256; from phase 2 on it is 256 or more. *)
Lemma Sinusoid_lookup_index_exact (x : Q) :
  ((0 <= x < 1)%Q -> 0 <= Sinusoid.lookup_index x < 256)
  /\ ((1 < x < 2)%Q -> 0 <= Sinusoid.lookup_index x < 256)
  /\ ((x == 1)%Q -> Sinusoid.lookup_index x = 256)
  /\ ((2 <= x)%Q -> 256 <= Sinusoid.lookup_index x).
Proof.
  unfold Sinusoid.lookup_index.
  cbn [fsub flt fconst fmul Exact int_of_float64].
  split; [| split; [| split]].
  - intros [H0 H1].
    assert (Qltb 1 x = false) as -> by (apply Qltb_false_iff; lra).
    apply (Qtrunc_range (x * 256) 0 256); [lia |].
    change (inject_Z 0) with 0%Q. change (inject_Z 256) with 256%Q. lra.
  - intros [H0 H1].
    assert (Qltb 1 x = true) as -> by (apply Qltb_iff; lra).
    apply (Qtrunc_range ((x - 1) * 256) 0 256); [lia |].
    change (inject_Z 0) with 0%Q. change (inject_Z 256) with 256%Q. lra.
  - intros Hx.
    assert (Qltb 1 x = false) as -> by (apply Qltb_false_iff; lra).
    rewrite (Qtrunc_comp (x * 256) 256); [reflexivity | lra | lra].
  - intros Hx.
    assert (Qltb 1 x = true) as -> by (apply Qltb_iff; lra).
    assert (0 <= (x - 1) * 256)%Q as Hpos by lra.
    rewrite Qtrunc_floor by exact Hpos.
    apply (Qfloor_resp_le 256 ((x - 1) * 256)). lra.
Qed.

(** C4, on binary64 numbers: on a field of width 2, one call
    [Animate(0x1.b1e5f75270d05p-1)] (about 0.847 s) leaves [offsets[2]] at
    exactly 0.5; at position 1 the phase is 0.5 + 0.5 = 1, which is not
    [> 1], the index is 256, and the read of the 256-entry table panics. *)
Theorem Sinusoid_lookup_past_the_table
    (math_Sin : float -> float) (math_Pi : float) (zindex : ZIndex) (base : RGBA) :
  let dt := 0x1.b1e5f75270d05p-1%float in
  let position := 1%float in
  let this := fst (Sinusoid.Animate (Sinusoid.NewSinusoid math_Sin math_Pi 2 zindex) dt) in
  PrimFloat.ltb 0 dt = true
  /\ PrimFloat.leb 0 position = true
  /\ PrimFloat.ltb position (Sinusoid.scale this) = true
  /\ length (Sinusoid.sineLookup this) = 256%nat
  /\ Sinusoid.offset2 this = 0.5%float
  /\ Sinusoid.lookup_index (position / Sinusoid.scale this + Sinusoid.offset2 this)%f64
     = 256
  /\ Sinusoid.lookup this (position / Sinusoid.scale this + Sinusoid.offset2 this)%f64
     = None
  /\ Sinusoid.ColorAt this position base = None.
Proof.
  intros dt position this.
  assert (Hlen : length (Sinusoid.sineLookup this) = 256%nat)
    by exact (Sinusoid_table_length math_Sin math_Pi 2 zindex [dt]).
  assert (Hlook : forall x : float,
            Sinusoid.lookup this x
            = slice_get (Sinusoid.sineLookup this) (Sinusoid.lookup_index x))
    by reflexivity.
  assert (Hin : forall i : Z, 0 <= i < 256 ->
            exists v, slice_get (Sinusoid.sineLookup this) i = Some v).
  { intros i Hi. apply slice_get_in_range. rewrite Hlen. exact Hi. }
  assert (Hout : slice_get (Sinusoid.sineLookup this) 256 = None).
  { apply slice_get_out_of_range. rewrite Hlen. right. reflexivity. }
  assert (H2 : Sinusoid.lookup_index
                 (position / Sinusoid.scale this + Sinusoid.offset2 this)%f64 = 256)
    by (vm_compute; reflexivity).
  assert (H0 : Sinusoid.lookup_index
                 (position / Sinusoid.scale this + Sinusoid.offset0 this)%f64 = 186)
    by (vm_compute; reflexivity).
  assert (H1 : Sinusoid.lookup_index
                 (position / Sinusoid.scale this + Sinusoid.offset1 this)%f64 = 216)
    by (vm_compute; reflexivity).
  split; [reflexivity |]. split; [reflexivity |]. split; [reflexivity |].
  split; [exact Hlen |]. split; [reflexivity |]. split; [exact H2 |].
  split.
  - rewrite Hlook, H2. exact Hout.
  - unfold Sinusoid.ColorAt. rewrite !Hlook, H0, H1, H2, Hout.
    destruct (Hin 186) as [r ->]; [lia |].
    destruct (Hin 216) as [g ->]; [lia |].
    reflexivity.
Qed.

(** The same escape over the rationals, where 0.59 is exact and the call
    is [Animate(50/59)]. *)
Example Sinusoid_escape_exact :
  let this :=
    fst (Sinusoid.Animate
           (Sinusoid.NewSinusoid (F := Q) (fun x => x) 3%Q 2 0) (50 # 59)%Q) in
  (Sinusoid.offset2 this == 0.5)%Q
  /\ Sinusoid.lookup_index (1 / Sinusoid.scale this + Sinusoid.offset2 this)%Q = 256
  /\ Sinusoid.ColorAt this 1%Q (mkRGBA 0 0 0 0) = None.
Proof. vm_compute. repeat split. Qed.

(** A long step: after [Animate(4)] on a field of width 10,
    [offsets[2]] is about 1.36, beyond 1 after its one subtraction; at
    position 9 the phase is about 2.26 and the index 322. *)
Example Sinusoid_lookup_after_long_step
    (math_Sin : float -> float) (math_Pi : float) :
  let this := fst (Sinusoid.Animate (Sinusoid.NewSinusoid math_Sin math_Pi 10 0) 4%float) in
  PrimFloat.ltb 1 (Sinusoid.offset2 this) = true
  /\ Sinusoid.lookup_index (9 / Sinusoid.scale this + Sinusoid.offset2 this)%float = 322.
Proof. vm_compute. split; reflexivity. Qed.

(** ** Sinusoid: steps of at most a second, over the rationals *)

Lemma Sinusoid_advance_unit (offset dt rate : Q) :
  (0 <= offset <= 1)%Q -> (0 <= dt * rate <= 1)%Q ->
  (0 <= Sinusoid.advance offset dt rate <= 1)%Q.
Proof.
  intros Ho Hd. unfold Sinusoid.advance.
  cbn [fadd fmul fsub flt fconst Exact].
  destruct (Qltb 1 (offset + dt * rate)) eqn:E.
  - apply Qltb_iff in E. lra.
  - apply Qltb_false_iff in E. lra.
Qed.

Lemma Sinusoid_Animate_offsets_unit (s : Sinusoid.t Q) (dt : Q) :
  Sinusoid_offsets_unit s -> (0 <= dt <= 1)%Q ->
  Sinusoid_offsets_unit (fst (Sinusoid.Animate s dt)).
Proof.
  intros (H0 & H1 & H2) Hdt.
  unfold Sinusoid_offsets_unit, Sinusoid.Animate, Sinusoid.offset0,
    Sinusoid.offset1, Sinusoid.offset2 in *.
  cbn [fst snd Sinusoid.offsets fconst Exact].
  repeat split; apply Sinusoid_advance_unit; try assumption; lra.
Qed.

Lemma Sinusoid_run_offsets_unit (dts : list Q) :
  forall s : Sinusoid.t Q,
    Sinusoid_offsets_unit s -> Forall (fun dt => 0 <= dt <= 1)%Q dts ->
    Sinusoid_offsets_unit (Sinusoid.run s dts)
    /\ Sinusoid.scale (Sinusoid.run s dts) = Sinusoid.scale s.
Proof.
  unfold Sinusoid.run.
  induction dts as [| dt dts IH]; intros s Hs Hall; cbn [fold_left].
  - split; [exact Hs | reflexivity].
  - inversion Hall as [| dt' dts' Hdt Hrest]; subst.
    destruct (IH (fst (Sinusoid.Animate s dt))) as [Hu Hscale].
    + apply Sinusoid_Animate_offsets_unit; assumption.
    + exact Hrest.
    + split; [exact Hu | rewrite Hscale; reflexivity].
Qed.

(** X13: before the first [Animate] the three offsets are 0, and
    [ColorAt] returns a colour at every position of the field: the phase
    [position / scale] is below 1, the three table reads are one read in
    range, and the colour is a grey. *)
Theorem NewSinusoid_ColorAt_safe
    (math_Sin : Q -> Q) (math_Pi : Q) (width : Z) (zindex : ZIndex)
    (position : Q) (base : RGBA) :
  let s := Sinusoid.NewSinusoid math_Sin math_Pi width zindex in
  (0 <= position < Sinusoid.scale s)%Q ->
  exists v : Z, Sinusoid.ColorAt s position base = Some (mkRGBA v v v 255).
Proof.
  intros s [Hp0 Hp1].
  assert (Hlen : length (Sinusoid.sineLookup s) = 256%nat)
    by exact (Sinusoid_table_length math_Sin math_Pi width zindex []).
  assert (Hscale : (0 < Sinusoid.scale s)%Q) by lra.
  assert (Hfp : (0 <= position / Sinusoid.scale s < 1)%Q).
  { split.
    - apply Qle_shift_div_l; [exact Hscale | lra].
    - apply Qlt_shift_div_r; [exact Hscale | lra]. }
  unfold Sinusoid.ColorAt.
  change (Sinusoid.offset0 s) with 0.0%Q.
  change (Sinusoid.offset1 s) with 0.0%Q.
  change (Sinusoid.offset2 s) with 0.0%Q.
  cbn [fadd fdiv Exact].
  set (x := (position / Sinusoid.scale s + 0.0)%Q).
  assert (Hx : (0 <= x < 1)%Q).
  { assert (E : (x == position / Sinusoid.scale s)%Q) by (subst x; ring).
    rewrite E. exact Hfp. }
  destruct (slice_get_in_range (Sinusoid.sineLookup s) (Sinusoid.lookup_index x))
    as [v Hv].
  { rewrite Hlen. exact (proj1 (Sinusoid_lookup_index_exact x) Hx). }
  exists v. unfold Sinusoid.lookup. rewrite Hv. reflexivity.
Qed.

Lemma NewSinusoid_ColorAt_safe_witness :
  exists v : Z,
    Sinusoid.ColorAt (Sinusoid.NewSinusoid (F := Q) (fun x => (x - 3) / 4)%Q 3%Q 10 0)
      3%Q (mkRGBA 0 0 0 0)
    = Some (mkRGBA v v v 255).
Proof.
  apply (NewSinusoid_ColorAt_safe (fun x => (x - 3) / 4)%Q 3%Q 10 0 3%Q (mkRGBA 0 0 0 0)).
  split; [discriminate | reflexivity].
Defined.

(** The same read on binary64 numbers, with a table of any [math.Sin]. *)
Example NewSinusoid_lookup_binary64 (math_Sin : float -> float) (math_Pi : float) :
  let s := Sinusoid.NewSinusoid math_Sin math_Pi 10 0 in
  Sinusoid.lookup_index (3%float / Sinusoid.scale s + Sinusoid.offset0 s)%f64 = 76
  /\ Sinusoid.lookup_index (3%float / Sinusoid.scale s + Sinusoid.offset1 s)%f64 = 76
  /\ Sinusoid.lookup_index (3%float / Sinusoid.scale s + Sinusoid.offset2 s)%f64 = 76.
Proof. vm_compute. repeat split. Qed.

(** ** Ball: from [NewBall] *)

Lemma int64_small (x : Z) : - 2 ^ 63 <= x < 2 ^ 63 -> int64 x = x.
Proof.
  intros Hx. unfold int64. rewrite Z.mod_small; lia.
Qed.

(** Over the rationals a ball from [NewBall] on a field of width 1 or
    more starts on the field, at its left end, moving right at a third of
    the width per second (on binary64 numbers, at the number nearest to
    it). *)
Lemma NewBall_on_the_field (width : Z) :
  1 <= width <= 2 ^ 53 ->
  Ball_in_bounds (Ball.NewBall width)
  /\ (Ball.position (Ball.NewBall (F := Q) width) == 0)%Q
  /\ (Ball.velocity (Ball.NewBall (F := Q) width) == inject_Z width / 3)%Q
  /\ (0 < Ball.velocity (Ball.NewBall (F := Q) width))%Q
  /\ Ball.maxPosition (Ball.NewBall (F := Q) width) = inject_Z (width - 1).
Proof.
  intros Hw.
  assert (Hmax : Ball.maxPosition (Ball.NewBall (F := Q) width) = inject_Z (width - 1)).
  { unfold Ball.NewBall; cbn [Ball.maxPosition float64_of_int Exact].
    rewrite int64_small by lia. reflexivity. }
  assert (Hwq : (1 <= inject_Z width)%Q).
  { change 1%Q with (inject_Z 1). rewrite <- Zle_Qle. lia. }
  assert (Hv : (Ball.velocity (Ball.NewBall (F := Q) width) == inject_Z width / 3)%Q).
  { unfold Ball.NewBall; cbn [Ball.velocity float64_of_int fdiv fconst Exact].
    field. }
  assert (Hpos : (0 < inject_Z width / 3)%Q).
  { apply Qlt_shift_div_l; lra. }
  split; [| split; [reflexivity | split; [exact Hv | split; [| exact Hmax]]]].
  - unfold Ball_in_bounds. rewrite Hmax.
    unfold Ball.NewBall; cbn [Ball.position fconst Exact].
    split; [apply Qle_refl |].
    change 0%Q with (inject_Z 0). rewrite <- Zle_Qle. lia.
  - rewrite Hv. exact Hpos.
Qed.

(** * Further properties of the code *)

(** ** Blend *)

(** X1: [blend] computes the same colour whatever the width of the
    platform's [uint], from 16 bits up: on a 32-bit and on a 64-bit build
    in particular. *)
Theorem blend_same_on_every_platform (w1 w2 : Z) (f b : RGBA) :
  16 <= w1 -> 16 <= w2 -> valid_RGBA f -> valid_RGBA b ->
  blend_w w1 f b = blend_w w2 f b.
Proof.
  intros H1 H2 Hf Hb.
  rewrite (blend_w_unfold w1), (blend_w_unfold w2) by assumption.
  reflexivity.
Qed.

Lemma blend_same_on_every_platform_witness :
  blend_w 32 (mkRGBA 255 0 0 200) (mkRGBA 10 20 30 255)
  = blend_w 64 (mkRGBA 255 0 0 200) (mkRGBA 10 20 30 255).
Proof.
  apply blend_same_on_every_platform; try lia; valid_colour.
Defined.

(** With 8-bit arithmetic the products would wrap: the width matters
    below 16 bits. *)
Example blend_w_narrow :
  blend_w 8 (mkRGBA 255 0 0 200) (mkRGBA 10 20 30 255) = mkRGBA 0 0 0 200
  /\ blend_w 64 (mkRGBA 255 0 0 200) (mkRGBA 10 20 30 255) = mkRGBA 201 4 6 200.
Proof. split; reflexivity. Qed.

Lemma blend_channel_below (f fa b ba : Z) :
  is_uint8 f -> is_uint8 fa -> is_uint8 b -> is_uint8 ba ->
  let c := blend_channel f fa b (Z.shiftr (ba * (255 - fa)) 8) in
  0 <= c /\ (c < Z.max f b \/ (c = 0 /\ Z.max f b = 0)).
Proof.
  intros Hf Hfa Hb Hba c. subst c. unfold blend_channel. rewrite !shiftr_8.
  pose proof (background_weight_range fa ba Hfa Hba) as Hw.
  set (w := ba * (255 - fa) / 256) in *.
  pose proof (Z.mul_div_le (f * fa) 256 ltac:(lia)) as H1.
  pose proof (Z.mul_div_le (b * w) 256 ltac:(lia)) as H2.
  assert (0 <= f * fa / 256) by (apply Z.div_pos; unfold is_uint8 in *; nia).
  assert (0 <= b * w / 256) by (apply Z.div_pos; unfold is_uint8 in *; nia).
  unfold is_uint8 in *.
  split; [lia |].
  destruct (Z.max_spec f b) as [[Hlt ->] | [Hge ->]]; nia.
Qed.

(** X2: [blend] never brightens: every colour channel of the result is
    strictly below the larger of the foreground's and the background's
    value of that channel, or 0 when both are 0. *)
Theorem blend_darkens (f b : RGBA) :
  valid_RGBA f -> valid_RGBA b ->
  (R (blend f b) < Z.max (R f) (R b) \/ (R (blend f b) = 0 /\ Z.max (R f) (R b) = 0))
  /\ (G (blend f b) < Z.max (G f) (G b) \/ (G (blend f b) = 0 /\ Z.max (G f) (G b) = 0))
  /\ (B (blend f b) < Z.max (B f) (B b) \/ (B (blend f b) = 0 /\ Z.max (B f) (B b) = 0)).
Proof.
  intros Hf Hb. rewrite blend_unfold by assumption.
  destruct Hf as (HfR & HfG & HfB & HfA), Hb as (HbR & HbG & HbB & HbA).
  cbn [R G B A]. unfold background_weight.
  repeat split; apply blend_channel_below; assumption.
Qed.

Lemma blend_darkens_witness :
  R (blend (mkRGBA 255 0 0 200) (mkRGBA 10 20 30 255)) < 255.
Proof.
  destruct (proj1 (blend_darkens (mkRGBA 255 0 0 200) (mkRGBA 10 20 30 255)
                     ltac:(valid_colour) ltac:(valid_colour))) as [Hlt | [_ H0]].
  - exact Hlt.
  - discriminate H0.
Defined.

Lemma blend_channel_mono (f f' fa b b' w : Z) :
  0 <= fa -> 0 <= w -> f <= f' -> b <= b' ->
  blend_channel f fa b w <= blend_channel f' fa b' w.
Proof.
  intros Hfa Hw Hf Hb. unfold blend_channel. rewrite !shiftr_8.
  apply Z.add_le_mono; apply Z.div_le_mono; nia.
Qed.

(** X3: [blend] is monotone in the colours: with the two alphas fixed, a
    foreground and a background that are at least as bright in a channel
    give a result at least as bright in that channel. *)
Theorem blend_monotone (f f' b b' : RGBA) :
  valid_RGBA f -> valid_RGBA f' -> valid_RGBA b -> valid_RGBA b' ->
  A f = A f' -> A b = A b' ->
  (R f <= R f' -> R b <= R b' -> R (blend f b) <= R (blend f' b'))
  /\ (G f <= G f' -> G b <= G b' -> G (blend f b) <= G (blend f' b'))
  /\ (B f <= B f' -> B b <= B b' -> B (blend f b) <= B (blend f' b')).
Proof.
  intros Hf Hf' Hb Hb' Ea Eb.
  rewrite (blend_unfold f b), (blend_unfold f' b') by assumption.
  cbn [R G B A]. unfold background_weight. rewrite <- Ea, <- Eb.
  destruct Hf as (_ & _ & _ & HfA), Hb as (_ & _ & _ & HbA).
  pose proof (background_weight_range _ _ HfA HbA) as Hw.
  rewrite <- shiftr_8 in Hw.
  repeat split; intros; apply blend_channel_mono; unfold is_uint8 in *; lia.
Qed.

Lemma blend_monotone_witness :
  R (blend (mkRGBA 100 0 0 200) (mkRGBA 10 20 30 255))
  <= R (blend (mkRGBA 255 0 0 200) (mkRGBA 90 20 30 255)).
Proof.
  refine (proj1 (blend_monotone (mkRGBA 100 0 0 200) (mkRGBA 255 0 0 200)
                   (mkRGBA 10 20 30 255) (mkRGBA 90 20 30 255)
                   _ _ _ _ eq_refl eq_refl) _ _);
    try valid_colour; cbn [R]; lia.
Defined.

(** ** Player *)

Lemma Player_run_state {F : Type} `{Float64 F} (calls : list (Player.call F)) :
  forall this : Player.t F,
    Player.line (Player.run this calls) = Player.line this
    /\ Player.visible (Player.run this calls)
       = Player_last_shown calls (Player.visible this).
Proof.
  unfold Player.run, Player_last_shown.
  induction calls as [| c calls IH]; intros this; cbn [fold_left].
  - split; reflexivity.
  - destruct (IH (Player.step this c)) as [Hl Hv]. rewrite Hl, Hv.
    destruct c as [v | dt]; split; reflexivity.
Qed.

(** X4: whatever is called on a player, its line (edges, colour, z
    index) stays the one it was built with, and it is visible exactly when
    the last [UpdateVisible] said so (as at the start when there was none);
    it then answers the line's colour when visible and the base when not. *)
Theorem Player_calls_keep_the_line {F : Type} `{Float64 F}
    (this : Player.t F) (calls : list (Player.call F)) (position : F) (base : RGBA) :
  Player.line (Player.run this calls) = Player.line this
  /\ Player.ZIndex_of (Player.run this calls) = Player.ZIndex_of this
  /\ Player.visible (Player.run this calls)
     = Player_last_shown calls (Player.visible this)
  /\ Player.ColorAt (Player.run this calls) position base
     = (if Player_last_shown calls (Player.visible this)
        then Line.ColorAt (Player.line this) position base
        else base).
Proof.
  destruct (Player_run_state calls this) as [Hl Hv].
  unfold Player.ZIndex_of, Player.ColorAt. rewrite Hl, Hv.
  repeat split. destruct (Player_last_shown calls (Player.visible this)); reflexivity.
Qed.

(** The two paddles of a field, both shown. *)
Lemma NewPlayer_lines (isLeft : bool) (width : Z) :
  Player.line (Player.NewPlayer (F := Q) isLeft width)
  = if isLeft
    then Line.mk 0%Q (inject_Z (Z.quot width 2)) (mkRGBA 255 0 0 200) 10
    else Line.mk (inject_Z (Z.quot width 2) + 1)%Q (inject_Z width) (mkRGBA 0 255 0 200) 10.
Proof. destruct isLeft; reflexivity. Qed.

Lemma shown_ColorAt (isLeft : bool) (width : Z) (p : Q) (base : RGBA) :
  Player.ColorAt (Player.UpdateVisible (Player.NewPlayer isLeft width) true) p base
  = Line.ColorAt (Player.line (Player.NewPlayer isLeft width)) p base.
Proof. reflexivity. Qed.

(** X5: the paddles of [NewPlayer] split the field.  No position is
    coloured by both; the left one, red, colours exactly [0 .. width/2]
    and the right one, green, exactly [width/2 + 1 .. width] ([width/2]
    the integer quotient), so every whole position from 0 to [width] is
    coloured by exactly one of them. *)
Theorem NewPlayer_paddles_split_the_field (width : Z) (p : Q) (base : RGBA) :
  let left := Player.UpdateVisible (Player.NewPlayer (F := Q) true width) true in
  let right := Player.UpdateVisible (Player.NewPlayer (F := Q) false width) true in
  let half := inject_Z (Z.quot width 2) in
  ((0 <= p <= half)%Q ->
     Player.ColorAt left p base = blend (mkRGBA 255 0 0 200) base
     /\ Player.ColorAt right p base = base)
  /\ ((half + 1 <= p <= inject_Z width)%Q ->
     Player.ColorAt left p base = base
     /\ Player.ColorAt right p base = blend (mkRGBA 0 255 0 200) base)
  /\ (~ (0 <= p <= half)%Q -> ~ (half + 1 <= p <= inject_Z width)%Q ->
     Player.ColorAt left p base = base /\ Player.ColorAt right p base = base)
  /\ (forall n : Z, 0 <= n <= width -> (p == inject_Z n)%Q ->
     ((0 <= p <= half)%Q /\ ~ (half + 1 <= p <= inject_Z width)%Q)
     \/ (~ (0 <= p <= half)%Q /\ (half + 1 <= p <= inject_Z width)%Q)).
Proof.
  intros left right half. subst left right.
  rewrite !shown_ColorAt, !NewPlayer_lines. fold half.
  split; [| split; [| split]].
  - intros [H0 H1]. split.
    + apply Line_ColorAt_inside; apply le_f64_exact; assumption.
    + apply Line_ColorAt_outside. rewrite !le_f64_exact.
      cbn [Line.leftEdge Line.rightEdge]. intros [Hc _]. lra.
  - intros [H0 H1]. split.
    + apply Line_ColorAt_outside. rewrite !le_f64_exact.
      cbn [Line.leftEdge Line.rightEdge]. intros [_ Hc]. lra.
    + apply Line_ColorAt_inside; apply le_f64_exact; assumption.
  - intros Hl Hr. split; apply Line_ColorAt_outside; rewrite !le_f64_exact;
      cbn [Line.leftEdge Line.rightEdge]; assumption.
  - intros n Hn Hp.
    assert (Hcmp : forall a b : Z, (inject_Z a <= inject_Z b)%Q <-> a <= b)
      by (intros a b; rewrite <- Zle_Qle; reflexivity).
    assert (Hh1 : (half + 1 == inject_Z (Z.quot width 2 + 1))%Q)
      by (unfold half; rewrite inject_Z_plus; reflexivity).
    destruct (Z_le_gt_dec n (Z.quot width 2)) as [Hle | Hgt].
    + left. split.
      * rewrite Hp. split.
        -- change 0%Q with (inject_Z 0). apply Hcmp. lia.
        -- apply Hcmp. exact Hle.
      * intros [Hc _]. rewrite Hp, Hh1 in Hc. apply (proj1 (Hcmp _ _)) in Hc. lia.
    + right. split.
      * intros [_ Hc]. rewrite Hp in Hc. apply (proj1 (Hcmp _ _)) in Hc. lia.
      * rewrite Hp, Hh1. split; apply Hcmp; lia.
Qed.

Lemma NewPlayer_paddles_split_the_field_witness :
  Player.ColorAt (Player.UpdateVisible (Player.NewPlayer (F := Q) true 100) true)
    50%Q (mkRGBA 0 0 0 255)
  = blend (mkRGBA 255 0 0 200) (mkRGBA 0 0 0 255)
  /\ Player.ColorAt (Player.UpdateVisible (Player.NewPlayer (F := Q) false 100) true)
       50%Q (mkRGBA 0 0 0 255)
     = mkRGBA 0 0 0 255.
Proof.
  refine (proj1 (NewPlayer_paddles_split_the_field 100 50%Q (mkRGBA 0 0 0 255)) _).
  split; discriminate.
Defined.

(** ** Ball *)

Lemma Ball_Animate_speed (b : Ball.t Q) (dt : Q) :
  (Qabs (Ball.velocity (fst (Ball.Animate b dt))) == Qabs (Ball.velocity b))%Q.
Proof.
  destruct (Ball_Animate_cases b dt) as [[_ E] | [(_ & _ & E) | (_ & _ & E)]];
    rewrite E; cbn [fst Ball.velocity]; try apply Qabs_opp; reflexivity.
Qed.

Lemma Ball_steps_speed (dts : list Q) (speed : Q) (max : Q) (z : ZIndex) :
  forall b : Ball.t Q,
    (Qabs (Ball.velocity b) == speed)%Q -> Ball.maxPosition b = max ->
    Ball.zindex b = z ->
    Forall (fun step : Ball.t Q * Q * Ball.t Q =>
              (Qabs (Ball.velocity (snd step)) == speed)%Q
              /\ Ball.maxPosition (snd step) = max
              /\ Ball.zindex (snd step) = z)
           (Ball.steps b dts).
Proof.
  induction dts as [| dt dts IH]; intros b Hv Hmax Hz; cbn [Ball.steps].
  - constructor.
  - destruct (Ball_Animate_frame b dt) as (_ & Hmax' & Hz').
    pose proof (Ball_Animate_speed b dt) as Hv'.
    assert (Hstep : (Qabs (Ball.velocity (fst (Ball.Animate b dt))) == speed)%Q
                    /\ Ball.maxPosition (fst (Ball.Animate b dt)) = max
                    /\ Ball.zindex (fst (Ball.Animate b dt)) = z).
    { split; [rewrite Hv'; exact Hv | split; congruence]. }
    constructor; [exact Hstep |].
    apply IH; apply Hstep.
Qed.

(** X6: [Animate] never changes the ball's speed, its [maxPosition] or
    its z index, whatever the steps (long, zero or negative): after every
    call the velocity is the first one or its negation. *)
Theorem Ball_speed_is_constant (b : Ball.t Q) (dts : list Q) :
  Forall (fun step : Ball.t Q * Q * Ball.t Q =>
            (Qabs (Ball.velocity (snd step)) == Qabs (Ball.velocity b))%Q
            /\ Ball.maxPosition (snd step) = Ball.maxPosition b
            /\ Ball.zindex (snd step) = Ball.zindex b)
         (Ball.steps b dts).
Proof.
  apply Ball_steps_speed; reflexivity.
Qed.

(** X8: a ball from [NewBall] on a field of width 2 or more (a width a
    [float64] holds exactly) starts at position 0, moving right, with
    [maxPosition] at [width - 1], and frames of at most a second and a half
    keep it on the field, never at rest. *)
Theorem NewBall_short_frames (width : Z) (dts : list Q) :
  2 <= width <= 2 ^ 53 ->
  Forall (fun dt => 0 < dt <= 3 # 2)%Q dts ->
  let ball := Ball.NewBall (F := Q) width in
  (Ball.position ball == 0)%Q
  /\ (0 < Ball.velocity ball)%Q
  /\ (Ball.maxPosition ball == inject_Z width - 1)%Q
  /\ Forall (fun step => Ball_in_bounds (snd step)
                         /\ ~ (Ball.velocity (snd step) == 0)%Q)
            (Ball.steps ball dts).
Proof.
  intros Hw Hall ball.
  destruct (NewBall_on_the_field width ltac:(lia)) as (Hin & Hp & Hv & Hv0 & Hmax).
  fold ball in Hin, Hp, Hv, Hv0, Hmax.
  assert (Hwq : (2 <= inject_Z width)%Q).
  { change 2%Q with (inject_Z 2). rewrite <- Zle_Qle. lia. }
  assert (Hm : (inject_Z (width - 1) == inject_Z width - 1)%Q).
  { unfold Z.sub. rewrite inject_Z_plus. reflexivity. }
  split; [exact Hp |]. split; [exact Hv0 |].
  split; [rewrite Hmax; exact Hm |].
  assert (Hb : Forall (fun step => Ball_in_bounds (snd step)) (Ball.steps ball dts)).
  { apply Ball_steps_in_bounds; [exact Hin |].
    revert Hall. apply Forall_impl. intros dt [Hdt0 Hdt1].
    split; [exact Hdt0 |].
    rewrite Hmax, Hm, Hv, Qabs_pos by (apply Qlt_le_weak; rewrite <- Hv; exact Hv0).
    apply Qle_trans with (inject_Z width / 3 * (3 # 2))%Q.
    - apply Qmult_le_l; [rewrite <- Hv; exact Hv0 | exact Hdt1].
    - assert (inject_Z width / 3 * (3 # 2) == inject_Z width / 2)%Q as -> by field.
      apply Qle_shift_div_r; lra. }
  assert (Hn : Forall (fun step => ~ (Ball.velocity (snd step) == 0)%Q)
                 (Ball.steps ball dts)).
  { apply Ball_steps_nonzero. lra. }
  apply Forall_forall. intros step Hstep. split.
  - exact (proj1 (Forall_forall _ _) Hb step Hstep).
  - exact (proj1 (Forall_forall _ _) Hn step Hstep).
Qed.

Lemma NewBall_short_frames_witness :
  Forall (fun step => Ball_in_bounds (snd step) /\ ~ (Ball.velocity (snd step) == 0)%Q)
    (Ball.steps (Ball.NewBall (F := Q) 100) [1%Q; 1.5%Q; 0.02%Q]).
Proof.
  refine (proj2 (proj2 (proj2 (NewBall_short_frames 100 [1%Q; 1.5%Q; 0.02%Q] _ _)))).
  - lia.
  - repeat constructor; try reflexivity; discriminate.
Defined.

(** On a field of width 1 the walls coincide and the first move already
    leaves the field. *)
Example NewBall_width_1 :
  (Ball.maxPosition (Ball.NewBall (F := Q) 1) == 0)%Q
  /\ (Ball.position (fst (Ball.Animate (Ball.NewBall (F := Q) 1) 3%Q)) == -1)%Q.
Proof. split; reflexivity. Qed.

(** ** Ball: the dot is symmetric *)

Lemma Qltb_comp (x x' y : Q) : (x == x')%Q -> Qltb x y = Qltb x' y.
Proof.
  intros E. destruct (Qltb x' y) eqn:H'.
  - apply Qltb_iff. rewrite E. apply Qltb_iff. exact H'.
  - apply Qltb_false_iff. rewrite E. apply Qltb_false_iff. exact H'.
Qed.

(** X9: the dot is symmetric about the ball, and moves with it: the
    colour [ColorAt] answers depends only on the distance between the
    position and the ball. *)
Theorem Ball_ColorAt_by_distance (b b' : Ball.t Q) (p p' : Q) (base : RGBA) :
  (Qabs (p - Ball.position b) == Qabs (p' - Ball.position b'))%Q ->
  Ball.ColorAt b p base = Ball.ColorAt b' p' base.
Proof.
  intros E. unfold Ball.ColorAt.
  cbn [fabs fsub flt fconst fmul Exact int_of_float64].
  rewrite (Qltb_comp _ _ 1 E).
  destruct (Qltb (Qabs (p' - Ball.position b')) 1) eqn:Hd; [| reflexivity].
  apply Qltb_iff in Hd.
  f_equal. f_equal. f_equal.
  apply Qtrunc_comp.
  - rewrite E.
    assert (0 <= (1 - Qabs (p' - Ball.position b')) * 255)%Q by lra.
    assert ((1.0 - Qabs (p' - Ball.position b')) * 255.0
            == (1 - Qabs (p' - Ball.position b')) * 255)%Q as -> by ring.
    assumption.
  - rewrite E. reflexivity.
Qed.

Lemma Ball_ColorAt_by_distance_witness :
  Ball.ColorAt (Ball.mk 5%Q 10%Q 9%Q 100) 5.25%Q (mkRGBA 0 0 0 255)
  = Ball.ColorAt (Ball.mk 5%Q 10%Q 9%Q 100) 4.75%Q (mkRGBA 0 0 0 255).
Proof.
  apply Ball_ColorAt_by_distance. reflexivity.
Defined.

(** ** Sinusoid: what the table holds *)

Lemma list_set_app {T : Type} (pre : list T) (x v : T) (rest : list T) :
  list_set (pre ++ x :: rest) (length pre) v = pre ++ v :: rest.
Proof.
  induction pre as [| y pre IH]; cbn [app length list_set].
  - reflexivity.
  - rewrite IH. reflexivity.
Qed.

(** A loop that stores [f index] at every [index] of a zeroed slice, in
    order, leaves the slice of the [f index]. *)
Lemma store_loop {T : Type} (zero : T) (f : Z -> T) (m : nat) :
  forall (k : nat) (pre : list T),
    length pre = k ->
    fold_left (fun (table : list T) (index : Z) => slice_set table index (f index))
      (map Z.of_nat (seq k m)) (pre ++ repeat zero m)
    = pre ++ map f (map Z.of_nat (seq k m)).
Proof.
  induction m as [| m IH]; intros k pre Hk; cbn [seq map fold_left repeat].
  - reflexivity.
  - unfold slice_set at 2.
    replace (0 <=? Z.of_nat k) with true by (symmetry; apply Z.leb_le; lia).
    rewrite Nat2Z.id, <- Hk, list_set_app, Hk.
    change (pre ++ f (Z.of_nat k) :: repeat zero m)
      with (pre ++ [f (Z.of_nat k)] ++ repeat zero m).
    rewrite app_assoc, (IH (S k)).
    + rewrite <- app_assoc. reflexivity.
    + rewrite length_app, Hk. cbn [length]. lia.
Qed.

Lemma halved_byte (x : Z) : 0 <= Z.shiftr (uint8 x) 1 <= 127.
Proof.
  unfold uint8. rewrite Z.shiftr_div_pow2 by lia. change (2 ^ 1) with 2.
  pose proof (Z.mod_pos_bound x 256 ltac:(lia)) as Hb.
  assert (x mod 256 / 2 < 128) by (apply Z.div_lt_upper_bound; lia).
  assert (0 <= x mod 256 / 2) by (apply Z.div_pos; lia).
  lia.
Qed.

(** X10: [buildLookup] fills the table with one sample per index: entry
    [i], for [i] from 0 to 255, is the byte of
    [(sin(i/256 * 2 * pi + offsets[0]) + 1) / 2 * 255] halved, a value from
    0 to 127 whatever [math.Sin] returns, and there is no other entry. *)
Theorem Sinusoid_table_samples {F : Type} `{Float64 F}
    (math_Sin : F -> F) (math_Pi : F) (width : Z) (zindex : ZIndex) :
  let table := Sinusoid.sineLookup (Sinusoid.NewSinusoid math_Sin math_Pi width zindex) in
  let sample := fun index : Z =>
    Z.shiftr
      (uint8 (int_of_float64
                ((math_Sin (float64_of_int index / fconst 256 * fconst 2.0 * math_Pi
                            + fconst 0.0)
                  + fconst 1.0) / fconst 2.0 * fconst 255.0)%f64))
      1 in
  table = map sample (map Z.of_nat (seq 0 256))
  /\ (forall i : Z, 0 <= i < 256 ->
        slice_get table i = Some (sample i) /\ 0 <= sample i <= 127)
  /\ (forall i : Z, i < 0 \/ 256 <= i -> slice_get table i = None).
Proof.
  intros table sample.
  assert (E : table = map sample (map Z.of_nat (seq 0 256))).
  { subst table. unfold Sinusoid.NewSinusoid, Sinusoid.buildLookup.
    cbn [Sinusoid.sineLookup Sinusoid.offset0 Sinusoid.offsets fst].
    exact (store_loop 0 sample 256 0%nat [] eq_refl). }
  assert (Hlen : length table = 256%nat).
  { rewrite E, !length_map, length_seq. reflexivity. }
  split; [exact E |]. split.
  - intros i Hi. split; [| apply halved_byte].
    unfold slice_get. rewrite Hlen.
    replace ((0 <=? i) && (i <? Z.of_nat 256)) with true
      by (symmetry; apply andb_true_iff; split;
          [apply Z.leb_le | apply Z.ltb_lt]; lia).
    rewrite E, !nth_error_map, nth_error_seq.
    replace (Z.to_nat i <? 256)%nat with true
      by (symmetry; apply Nat.ltb_lt; lia).
    cbn [option_map Nat.add]. rewrite Z2Nat.id by lia. reflexivity.
  - intros i Hi. apply slice_get_out_of_range. rewrite Hlen. lia.
Qed.

Lemma Sinusoid_run_frame {F : Type} `{Float64 F} (dts : list F) :
  forall s : Sinusoid.t F,
    Sinusoid.sineLookup (Sinusoid.run s dts) = Sinusoid.sineLookup s
    /\ Sinusoid.scale (Sinusoid.run s dts) = Sinusoid.scale s
    /\ Sinusoid.zindex (Sinusoid.run s dts) = Sinusoid.zindex s.
Proof.
  unfold Sinusoid.run. induction dts as [| dt dts IH]; intros s; cbn [fold_left].
  - repeat split.
  - destruct (IH (fst (Sinusoid.Animate s dt))) as (Ht & Hs & Hz).
    rewrite Ht, Hs, Hz. repeat split.
Qed.

Lemma Sinusoid_table_entries {F : Type} `{Float64 F}
    (math_Sin : F -> F) (math_Pi : F) (width : Z) (zindex : ZIndex) (dts : list F)
    (x : F) (v : Z) :
  Sinusoid.lookup
    (Sinusoid.run (Sinusoid.NewSinusoid math_Sin math_Pi width zindex) dts) x = Some v ->
  0 <= v <= 127.
Proof.
  unfold Sinusoid.lookup.
  destruct (Sinusoid_run_frame dts (Sinusoid.NewSinusoid math_Sin math_Pi width zindex))
    as (-> & _ & _).
  unfold Sinusoid.NewSinusoid, Sinusoid.buildLookup.
  cbn [Sinusoid.sineLookup Sinusoid.offset0 Sinusoid.offsets fst].
  rewrite (store_loop 0 _ 256 0%nat [] eq_refl). cbn [app].
  unfold slice_get.
  destruct ((0 <=? _) && _); [| discriminate].
  intros Hn. apply nth_error_In in Hn.
  apply in_map_iff in Hn. destruct Hn as (i & <- & _). apply halved_byte.
Qed.

(** X11: a colour that [Sinusoid.ColorAt] returns is opaque with red,
    green and blue from 0 to 127 (half brightness at most), and is the same
    over every base: the layer ignores what lies below it. *)
Theorem Sinusoid_ColorAt_half_bright {F : Type} `{Float64 F}
    (math_Sin : F -> F) (math_Pi : F) (width : Z) (zindex : ZIndex) (dts : list F)
    (position : F) (base : RGBA) (c : RGBA) :
  let this := Sinusoid.run (Sinusoid.NewSinusoid math_Sin math_Pi width zindex) dts in
  Sinusoid.ColorAt this position base = Some c ->
  0 <= R c <= 127 /\ 0 <= G c <= 127 /\ 0 <= B c <= 127 /\ A c = 255
  /\ forall other : RGBA, Sinusoid.ColorAt this position other = Some c.
Proof.
  intros this. unfold Sinusoid.ColorAt.
  destruct (Sinusoid.lookup this _) as [r |] eqn:Hr; [| discriminate].
  destruct (Sinusoid.lookup this _) as [g |] eqn:Hg in |- *; [| discriminate].
  destruct (Sinusoid.lookup this _) as [b |] eqn:Hb in |- *; [| discriminate].
  intros Hc. injection Hc as <-. cbn [R G B A].
  apply Sinusoid_table_entries in Hr, Hg, Hb.
  repeat split; try lia.
Qed.

Lemma Sinusoid_ColorAt_half_bright_witness :
  Sinusoid.ColorAt
    (Sinusoid.run
       (Sinusoid.NewSinusoid (F := Q) (fun x => (x - 3) / 4)%Q 3%Q 10 0) [0.5%Q])
    3%Q (mkRGBA 9 9 9 9)
  = Some (mkRGBA 57 64 72 255).
Proof.
  refine (proj2 (proj2 (proj2 (proj2
            (Sinusoid_ColorAt_half_bright (fun x => (x - 3) / 4)%Q 3%Q 10 0 [0.5%Q] 3%Q
               (mkRGBA 0 0 0 0) (mkRGBA 57 64 72 255) _)))) (mkRGBA 9 9 9 9)).
  vm_compute. reflexivity.
Defined.

(** X12: from construction, through [Animate] calls of at most a second
    each (and not negative), the three offsets stay between 0 and 1, as the
    comment on the field says, and the scale and the table stay as built. *)
Theorem Sinusoid_offsets_stay_unit
    (math_Sin : Q -> Q) (math_Pi : Q) (width : Z) (zindex : ZIndex) (dts : list Q) :
  Forall (fun dt => 0 <= dt <= 1)%Q dts ->
  let start := Sinusoid.NewSinusoid math_Sin math_Pi width zindex in
  let this := Sinusoid.run start dts in
  (0 <= Sinusoid.offset0 this <= 1)%Q
  /\ (0 <= Sinusoid.offset1 this <= 1)%Q
  /\ (0 <= Sinusoid.offset2 this <= 1)%Q
  /\ Sinusoid.scale this = inject_Z width
  /\ Sinusoid.sineLookup this = Sinusoid.sineLookup start.
Proof.
  intros Hall start this.
  destruct (Sinusoid_run_offsets_unit dts start) as [(H0 & H1 & H2) _].
  { unfold Sinusoid_offsets_unit, Sinusoid.offset0, Sinusoid.offset1,
      Sinusoid.offset2; cbn. lra. }
  { exact Hall. }
  destruct (Sinusoid_run_frame dts start) as (Ht & Hs & _).
  fold this in H0, H1, H2, Ht, Hs.
  repeat split; try assumption; try apply H0; try apply H1; try apply H2.
Qed.

Lemma Sinusoid_offsets_stay_unit_witness :
  (0 <= Sinusoid.offset2
          (Sinusoid.run (Sinusoid.NewSinusoid (F := Q) (fun x => x) 3%Q 10%Z 0%Z)
             [1%Q; 1%Q; 0.02%Q]) <= 1)%Q.
Proof.
  refine (proj1 (proj2 (proj2
            (Sinusoid_offsets_stay_unit (fun x => x) 3%Q 10 0 [1%Q; 1%Q; 0.02%Q] _)))).
  repeat constructor; discriminate.
Defined.

(** ** The sinusoid without a table *)

Lemma dimmed_channel (r : Z) (sine : Q) :
  is_uint8 r -> (0 <= sine <= 1)%Q ->
  0 <= uint8 (Qtrunc (inject_Z r * sine)) <= r.
Proof.
  intros [Hr0 Hr1] [Hs0 Hs1].
  assert (Hrq : (0 <= inject_Z r)%Q).
  { change 0%Q with (inject_Z 0). rewrite <- Zle_Qle. exact Hr0. }
  assert (Hlo : (0 <= inject_Z r * sine)%Q) by (apply Qmult_le_0_compat; assumption).
  assert (Hhi : (inject_Z r * sine <= inject_Z r)%Q).
  { rewrite <- (Qmult_1_r (inject_Z r)) at 2.
    destruct (Qeq_dec (inject_Z r) 0) as [E | N].
    - rewrite E. lra.
    - apply Qmult_le_l; [| exact Hs1].
      destruct (Qle_lt_or_eq _ _ Hrq) as [Hlt | Heq]; [exact Hlt |].
      exfalso. apply N. symmetry. exact Heq. }
  pose proof (Qtrunc_le _ _ (Qle_refl 0) Hlo) as H0.
  pose proof (Qtrunc_le _ _ Hlo Hhi) as H1.
  change (Qtrunc 0) with 0 in H0.
  rewrite (Qtrunc_floor (inject_Z r)), Qfloor_Z in H1 by exact Hrq.
  rewrite uint8_small by (unfold is_uint8; lia). lia.
Qed.

(** X14: with a sine between -1 and 1, the table-less sinusoid only
    dims its colour: at every position each of red, green and blue is
    between 0 and the original's, the alpha is the original's, and the base
    below is ignored. *)
Theorem PlainSinusoid_ColorAt_dims
    (math_Sin : Q -> Q) (this : PlainSinusoid.t Q) (position : Q) (base : RGBA) :
  (forall x : Q, -1 <= math_Sin x <= 1)%Q ->
  valid_RGBA (PlainSinusoid.originalColor this) ->
  let c := PlainSinusoid.ColorAt math_Sin this position base in
  0 <= R c <= R (PlainSinusoid.originalColor this)
  /\ 0 <= G c <= G (PlainSinusoid.originalColor this)
  /\ 0 <= B c <= B (PlainSinusoid.originalColor this)
  /\ A c = A (PlainSinusoid.originalColor this)
  /\ forall other : RGBA, PlainSinusoid.ColorAt math_Sin this position other = c.
Proof.
  intros Hsin (HR & HG & HB & HA) c. subst c.
  unfold PlainSinusoid.ColorAt.
  cbn [R G B A fadd fmul fdiv fconst float64_of_int int_of_float64 Exact].
  set (sine := ((math_Sin _ + 1.0) / 2.0)%Q).
  assert (Hs : (0 <= sine <= 1)%Q).
  { subst sine.
    match goal with |- context [math_Sin ?x] => pose proof (Hsin x) as [Hl Hu] end.
    split.
    - apply Qle_shift_div_l; [reflexivity | lra].
    - apply Qle_shift_div_r; [reflexivity | lra]. }
  repeat split; try (apply dimmed_channel; assumption).
Qed.

Lemma PlainSinusoid_ColorAt_dims_witness :
  R (PlainSinusoid.ColorAt (fun _ => 1 # 2)%Q
       (PlainSinusoid.mk 1%Q (mkRGBA 200 100 0 255) 0%Q 0) 5%Q (mkRGBA 0 0 0 0))
  <= 200.
Proof.
  refine (proj2 (proj1
            (PlainSinusoid_ColorAt_dims (fun _ => 1 # 2)%Q
               (PlainSinusoid.mk 1%Q (mkRGBA 200 100 0 255) 0%Q 0) 5%Q (mkRGBA 0 0 0 0)
               _ _))).
  - intros x. split; discriminate.
  - cbn [PlainSinusoid.originalColor]. valid_colour.
Defined.

(** X15: the table-less sinusoid's [Animate] only adds [dt] to the
    offset, and never wraps it: in every number model, after any calls the
    offset is the first one with the steps added one by one, and the scale,
    the colour and the z index are the ones it was built with.  Over the
    rationals, steps that are not negative never take the offset back. *)
Theorem PlainSinusoid_Animate_adds_up :
  (forall (F : Type) (F64 : Float64 F) (this : PlainSinusoid.t F) (dts : list F),
      PlainSinusoid.offset (PlainSinusoid.run this dts)
      = fold_left fadd dts (PlainSinusoid.offset this)
      /\ PlainSinusoid.scale (PlainSinusoid.run this dts) = PlainSinusoid.scale this
      /\ PlainSinusoid.originalColor (PlainSinusoid.run this dts)
         = PlainSinusoid.originalColor this
      /\ PlainSinusoid.zindex (PlainSinusoid.run this dts) = PlainSinusoid.zindex this)
  /\ (forall (this : PlainSinusoid.t Q) (dts : list Q),
      Forall (fun dt => 0 <= dt)%Q dts ->
      (PlainSinusoid.offset this <= PlainSinusoid.offset (PlainSinusoid.run this dts))%Q).
Proof.
  split.
  - intros F F64 this dts. unfold PlainSinusoid.run. revert this.
    induction dts as [| dt dts IH]; intros this; cbn [fold_left].
    + repeat split.
    + destruct (IH (fst (PlainSinusoid.Animate this dt))) as (Ho & Hs & Hc & Hz).
      rewrite Ho, Hs, Hc, Hz. repeat split.
  - intros this dts Hall. unfold PlainSinusoid.run. revert this.
    induction Hall as [| dt dts Hdt Hrest IH]; intros this; cbn [fold_left].
    + apply Qle_refl.
    + eapply Qle_trans; [| apply IH].
      cbn [fst PlainSinusoid.Animate PlainSinusoid.offset fadd Exact]. lra.
Qed.

Lemma PlainSinusoid_Animate_adds_up_witness :
  (PlainSinusoid.offset (PlainSinusoid.mk 1%Q (mkRGBA 10 20 30 255) 0%Q 1%Z)
   <= PlainSinusoid.offset
        (PlainSinusoid.run (PlainSinusoid.mk 1%Q (mkRGBA 10 20 30 255) 0%Q 1%Z)
           [0.5%Q; 0.25%Q]))%Q
  /\ PlainSinusoid.offset
       (PlainSinusoid.run (PlainSinusoid.mk 1%float (mkRGBA 10 20 30 255) 0%float 1%Z)
          [0.5%float; 0.25%float])
     = 0.75%float.
Proof.
  split.
  - refine (proj2 PlainSinusoid_Animate_adds_up
              (PlainSinusoid.mk 1%Q (mkRGBA 10 20 30 255) 0%Q 1%Z) [0.5%Q; 0.25%Q] _).
    repeat constructor; discriminate.
  - exact (proj1 (proj1 PlainSinusoid_Animate_adds_up float Binary64
                    (PlainSinusoid.mk 1%float (mkRGBA 10 20 30 255) 0%float 1%Z)
                    [0.5%float; 0.25%float])).
Defined.

(** ** HSL to RGB, over the rationals *)

(** Splits on every comparison of the goal, innermost first. *)
Ltac qltb_cases :=
  repeat match goal with
  | |- context [Qltb ?a ?b] =>
      lazymatch a with
      | context [Qltb] => fail
      | _ =>
          let C := fresh "C" in
          destruct (Qltb a b) eqn:C;
          [apply Qltb_iff in C | apply Qltb_false_iff in C]
      end
  end.

(** The quotients among the constants of [hslToRGB], computed. *)
Ltac hsl_constants :=
  change (1.0 / 6.0)%Q with (100 # 600)%Q in *;
  change (1.0 / 2.0)%Q with (100 # 200)%Q in *;
  change (2.0 / 3.0)%Q with (200 # 300)%Q in *;
  change (1.0 / 3.0)%Q with (100 # 300)%Q in *.

Lemma hueToRGB_bounds (p q t : Q) :
  (p <= q)%Q -> (-1 <= t)%Q ->
  (p <= HSLWheel.hueToRGB p q t <= q)%Q.
Proof.
  intros Hpq Ht. unfold HSLWheel.hueToRGB.
  cbn [fadd fsub fmul flt fconst Exact]. hsl_constants.
  qltb_cases; try lra; nra.
Qed.

(** A third of the hue circle is the plateau of [q]. *)
Lemma hueToRGB_top (p q t : Q) :
  ((1 # 6) <= t < (1 # 2))%Q \/ ((7 # 6) <= t < (3 # 2))%Q
  \/ (- (5 # 6) <= t < - (1 # 2))%Q ->
  (HSLWheel.hueToRGB p q t == q)%Q.
Proof.
  intros Ht. unfold HSLWheel.hueToRGB.
  cbn [fadd fsub fmul flt fconst Exact]. hsl_constants.
  qltb_cases; try reflexivity; exfalso; lra.
Qed.

(** A third of the hue circle is the plateau of [p]. *)
Lemma hueToRGB_bottom (p q t : Q) :
  ((2 # 3) <= t <= 1)%Q \/ (- (1 # 3) <= t < 0)%Q ->
  (HSLWheel.hueToRGB p q t == p)%Q.
Proof.
  intros Ht. unfold HSLWheel.hueToRGB.
  cbn [fadd fsub fmul flt fconst Exact]. hsl_constants.
  qltb_cases; try reflexivity; exfalso; lra.
Qed.

Lemma hsl_pq (s l : Q) :
  (0 <= s <= 1)%Q -> (0 <= l <= 1)%Q ->
  let q := if Qltb l 0.5%Q then (l * (1.0 + s))%Q else (l + s - l * s)%Q in
  let p := (2 * l - q)%Q in
  (0 <= p /\ p <= q /\ q <= 1)%Q.
Proof.
  intros [Hs0 Hs1] [Hl0 Hl1] q p. subst p q.
  destruct (Qltb l 0.5%Q) eqn:C;
    [apply Qltb_iff in C | apply Qltb_false_iff in C]; repeat split; nra.
Qed.

Lemma hsl_byte (x : Q) :
  (0 <= x <= 1)%Q -> uint8 (Qtrunc (x * 255.0)) = Qfloor (x * 255).
Proof.
  intros [H0 H1].
  assert (E : (x * 255.0 == x * 255)%Q) by ring.
  assert (Hr : (0 <= x * 255 <= 255)%Q) by lra.
  assert (Hx : (0 <= x * 255.0)%Q) by (rewrite E; apply Hr).
  rewrite uint8_small by (apply Qtrunc_byte; rewrite E; exact Hr).
  rewrite (Qtrunc_comp _ _ Hx E). apply Qtrunc_floor. apply Hr.
Qed.

Lemma hsl_byte_between (p x q : Q) :
  (0 <= p)%Q -> (p <= x <= q)%Q -> (q <= 1)%Q ->
  Qfloor (p * 255) <= uint8 (Qtrunc (x * 255.0)) <= Qfloor (q * 255).
Proof.
  intros Hp [Hpx Hxq] Hq. rewrite hsl_byte by lra.
  split; apply Qfloor_resp_le; lra.
Qed.

(** With a saturation that is not 0, [hslToRGB] is its second branch. *)
Lemma hslToRGB_coloured (hue s l : Q) :
  ~ (s == 0)%Q ->
  let q := if Qltb l 0.5%Q then (l * (1.0 + s))%Q else (l + s - l * s)%Q in
  let p := (2 * l - q)%Q in
  HSLWheel.hslToRGB hue s l =
  mkRGBA (uint8 (Qtrunc (HSLWheel.hueToRGB p q (hue + 1.0 / 3.0) * 255.0)%Q))
         (uint8 (Qtrunc (HSLWheel.hueToRGB p q hue * 255.0)%Q))
         (uint8 (Qtrunc (HSLWheel.hueToRGB p q (hue - 1.0 / 3.0) * 255.0)%Q))
         255.
Proof.
  intros Hs q p. unfold HSLWheel.hslToRGB.
  cbn [fadd fsub fmul flt feq fconst int_of_float64 Exact Exact_eq].
  destruct (Qeq_bool s 0) eqn:E.
  - apply Qeq_bool_iff in E. contradiction.
  - reflexivity.
Qed.

(** The three channels, the largest of them and the smallest. *)
Lemma hslToRGB_range (hue s l : Q) :
  (0 <= hue <= 1)%Q -> (0 < s <= 1)%Q -> (0 <= l <= 1)%Q ->
  let c := HSLWheel.hslToRGB hue s l in
  let q := if Qltb l 0.5%Q then (l * (1.0 + s))%Q else (l + s - l * s)%Q in
  let p := (2 * l - q)%Q in
  let lo := Qfloor (p * 255) in
  let hi := Qfloor (q * 255) in
  A c = 255
  /\ 0 <= lo /\ lo <= hi /\ hi <= 255
  /\ lo <= R c <= hi /\ lo <= G c <= hi /\ lo <= B c <= hi
  /\ Z.max (R c) (Z.max (G c) (B c)) = hi
  /\ Z.min (R c) (Z.min (G c) (B c)) = lo.
Proof.
  intros Hh Hs Hl c q p lo hi.
  assert (Hs' : ~ (s == 0)%Q) by lra.
  subst c. rewrite (hslToRGB_coloured hue s l Hs'). fold q. fold p.
  cbn [R G B A].
  destruct (hsl_pq s l ltac:(lra) Hl) as (Hp0 & Hpq & Hq1). fold q p in Hp0, Hpq, Hq1.
  set (tr := (hue + 1.0 / 3.0)%Q). set (tb := (hue - 1.0 / 3.0)%Q).
  assert (Etr : (tr == hue + (1 # 3))%Q) by (subst tr; hsl_constants; ring).
  assert (Etb : (tb == hue - (1 # 3))%Q) by (subst tb; hsl_constants; ring).
  pose proof (hueToRGB_bounds p q tr Hpq ltac:(lra)) as Br.
  pose proof (hueToRGB_bounds p q hue Hpq ltac:(lra)) as Bg.
  pose proof (hueToRGB_bounds p q tb Hpq ltac:(lra)) as Bb.
  pose proof (hsl_byte_between p _ q Hp0 Br Hq1) as Cr.
  pose proof (hsl_byte_between p _ q Hp0 Bg Hq1) as Cg.
  pose proof (hsl_byte_between p _ q Hp0 Bb Hq1) as Cb.
  fold lo hi in Cr, Cg, Cb.
  assert (Hlo : 0 <= lo).
  { change 0 with (Qfloor 0). apply Qfloor_resp_le. lra. }
  assert (Hhi : hi <= 255).
  { change 255 with (Qfloor 255). apply Qfloor_resp_le. lra. }
  assert (Htop : uint8 (Qtrunc (HSLWheel.hueToRGB p q tr * 255.0)%Q) = hi
                 \/ uint8 (Qtrunc (HSLWheel.hueToRGB p q hue * 255.0)%Q) = hi
                 \/ uint8 (Qtrunc (HSLWheel.hueToRGB p q tb * 255.0)%Q) = hi).
  { destruct (Qlt_le_dec hue (1 # 6)) as [H1 | H1];
      [| destruct (Qlt_le_dec hue (1 # 2)) as [H2 | H2];
         [| destruct (Qlt_le_dec hue (5 # 6)) as [H3 | H3]]].
    - left. rewrite hsl_byte by lra. apply Qfloor_comp.
      rewrite hueToRGB_top by lra. reflexivity.
    - right. left. rewrite hsl_byte by lra. apply Qfloor_comp.
      rewrite hueToRGB_top by lra. reflexivity.
    - right. right. rewrite hsl_byte by lra. apply Qfloor_comp.
      rewrite hueToRGB_top by lra. reflexivity.
    - left. rewrite hsl_byte by lra. apply Qfloor_comp.
      rewrite hueToRGB_top by lra. reflexivity. }
  assert (Hbot : uint8 (Qtrunc (HSLWheel.hueToRGB p q tr * 255.0)%Q) = lo
                 \/ uint8 (Qtrunc (HSLWheel.hueToRGB p q hue * 255.0)%Q) = lo
                 \/ uint8 (Qtrunc (HSLWheel.hueToRGB p q tb * 255.0)%Q) = lo).
  { destruct (Qlt_le_dec hue (1 # 3)) as [H1 | H1];
      [| destruct (Qlt_le_dec hue (2 # 3)) as [H2 | H2]].
    - right. right. rewrite hsl_byte by lra. apply Qfloor_comp.
      rewrite hueToRGB_bottom by lra. reflexivity.
    - left. rewrite hsl_byte by lra. apply Qfloor_comp.
      rewrite hueToRGB_bottom by lra. reflexivity.
    - right. left. rewrite hsl_byte by lra. apply Qfloor_comp.
      rewrite hueToRGB_bottom by lra. reflexivity. }
  repeat split; try lia.
Qed.

(** X16: [hslToRGB] returns an opaque colour.  With saturation 0 it is
    white, whatever the luminosity.  With a saturation in (0, 1], a hue and
    a luminosity in [0, 1], and [q], [p] the two levels the code computes,
    every channel is a byte between [floor(255 p)] and [floor(255 q)], the
    brightest channel at [floor(255 q)] and the darkest at [floor(255 p)],
    each to within one unit: the unit binary64 rounding can cost before the
    fraction is dropped ([hslToRGB_rounds]). *)
Theorem hslToRGB_channels (hue s l : Q) :
  let c := HSLWheel.hslToRGB hue s l in
  let q := if Qltb l 0.5%Q then (l * (1.0 + s))%Q else (l + s - l * s)%Q in
  let p := (2 * l - q)%Q in
  let lo := Qfloor (p * 255) in
  let hi := Qfloor (q * 255) in
  A c = 255
  /\ ((s == 0)%Q -> c = mkRGBA 255 255 255 255)
  /\ ((0 <= hue <= 1)%Q -> (0 < s <= 1)%Q -> (0 <= l <= 1)%Q ->
      0 <= lo /\ lo <= hi /\ hi <= 255
      /\ valid_RGBA c
      /\ lo - 1 <= R c <= hi + 1 /\ lo - 1 <= G c <= hi + 1 /\ lo - 1 <= B c <= hi + 1
      /\ hi - 1 <= Z.max (R c) (Z.max (G c) (B c)) <= hi + 1
      /\ lo - 1 <= Z.min (R c) (Z.min (G c) (B c)) <= lo + 1).
Proof.
  intros c q p lo hi. split; [| split].
  - subst c. unfold HSLWheel.hslToRGB.
    destruct (feq s (fconst 0)); reflexivity.
  - intros Hs. subst c. unfold HSLWheel.hslToRGB.
    cbn [feq fconst Exact Exact_eq].
    apply Qeq_bool_iff in Hs. rewrite Hs. reflexivity.
  - intros Hh Hs Hl.
    destruct (hslToRGB_range hue s l Hh Hs Hl)
      as (Ha & Hlo & Hlh & Hhi & HR & HG & HB & Hmax & Hmin).
    fold c q p lo hi in Ha, Hlo, Hlh, Hhi, HR, HG, HB, Hmax, Hmin.
    unfold valid_RGBA, is_uint8.
    split; [exact Hlo |]. split; [exact Hlh |]. split; [exact Hhi |].
    split; [lia |]. split; [lia |]. split; [lia |]. split; [lia |].
    split; lia.
Qed.

Lemma hslToRGB_channels_witness :
  126 <= Z.max (R (HSLWheel.hslToRGB (1 # 4) 1 (1 # 4))%Q)
           (Z.max (G (HSLWheel.hslToRGB (1 # 4) 1 (1 # 4))%Q)
                  (B (HSLWheel.hslToRGB (1 # 4) 1 (1 # 4))%Q))
      <= 128.
Proof.
  refine (proj1 (proj2 (proj2 (proj2 (proj2 (proj2 (proj2 (proj2
            (proj2 (proj2 (hslToRGB_channels (1 # 4) 1 (1 # 4))) _ _ _)))))))));
    split; try discriminate; reflexivity.
Defined.

(** Where rounding shows: at hue 0 and luminosity 0.9 the level [q] is
    exactly 1 over the rationals, and red is 255; on binary64 numbers
    [0.9 + 1 - 0.9 * 1] is a little below 1, and red is 254. *)
Example hslToRGB_rounds :
  HSLWheel.hslToRGB (F := Q) 0%Q 1%Q 0.9%Q = mkRGBA 255 204 204 255
  /\ HSLWheel.hslToRGB (F := float) 0%float 1%float (fconst 0.9) = mkRGBA 254 204 204 255.
Proof. vm_compute. split; reflexivity. Qed.

(** The primary hues at half luminosity, on binary64 numbers as over the
    rationals: red, green, blue. *)
Example hslToRGB_primaries :
  HSLWheel.hslToRGB (F := Q) 0%Q 1%Q 0.5%Q = mkRGBA 255 0 0 255
  /\ HSLWheel.hslToRGB (F := Q) (1 # 3)%Q 1%Q 0.5%Q = mkRGBA 0 255 0 255
  /\ HSLWheel.hslToRGB (F := Q) (2 # 3)%Q 1%Q 0.5%Q = mkRGBA 0 0 255 255
  /\ HSLWheel.hslToRGB (F := float) 0%float 1%float 0.5%float = mkRGBA 255 0 0 255
  /\ HSLWheel.hslToRGB (F := float) (fconst (1 # 3)) 1%float 0.5%float
     = mkRGBA 0 255 0 255
  /\ HSLWheel.hslToRGB (F := float) (fconst (2 # 3)) 1%float 0.5%float
     = mkRGBA 0 0 255 255.
Proof. repeat split. Qed.

(** ** HSL wheel *)

Lemma HSLWheel_Animate_hue (this : HSLWheel.t Q) (dt : Q) :
  (0 <= HSLWheel.hue this <= 1)%Q -> (0 <= dt <= 10)%Q ->
  (0 <= HSLWheel.hue (fst (HSLWheel.Animate this dt)) <= 1)%Q
  /\ HSLWheel.scale (fst (HSLWheel.Animate this dt)) = HSLWheel.scale this
  /\ HSLWheel.zindex (fst (HSLWheel.Animate this dt)) = HSLWheel.zindex this.
Proof.
  intros Hh Hdt. unfold HSLWheel.Animate.
  cbn [fst HSLWheel.hue HSLWheel.scale HSLWheel.zindex fadd fsub fmul flt fconst Exact].
  split; [| split; reflexivity].
  qltb_cases; lra.
Qed.

(** X17: the hue of a wheel from [NewHSLWheel] starts at 0 and stays
    between 0 and 1 through [Animate] calls of at most ten seconds each (and
    not negative); the scale stays the width of the field. *)
Theorem HSLWheel_hue_stays_unit (width : Z) (zindex : ZIndex) (dts : list Q) :
  Forall (fun dt => 0 <= dt <= 10)%Q dts ->
  let this := HSLWheel.run (HSLWheel.NewHSLWheel (F := Q) width zindex) dts in
  (0 <= HSLWheel.hue this <= 1)%Q
  /\ HSLWheel.scale this = inject_Z width
  /\ HSLWheel.zindex this = zindex.
Proof.
  intros Hall this. subst this.
  assert (Hgen : forall s : HSLWheel.t Q,
            (0 <= HSLWheel.hue s <= 1)%Q ->
            (0 <= HSLWheel.hue (HSLWheel.run s dts) <= 1)%Q
            /\ HSLWheel.scale (HSLWheel.run s dts) = HSLWheel.scale s
            /\ HSLWheel.zindex (HSLWheel.run s dts) = HSLWheel.zindex s).
  { unfold HSLWheel.run.
    induction Hall as [| dt dts Hdt Hrest IH]; intros s Hs; cbn [fold_left].
    - repeat split; apply Hs.
    - destruct (HSLWheel_Animate_hue s dt Hs Hdt) as (Hh & Hsc & Hz).
      destruct (IH _ Hh) as (Hh' & Hsc' & Hz').
      rewrite Hsc', Hz', Hsc, Hz. repeat split; apply Hh'. }
  apply Hgen. cbn. lra.
Qed.

Lemma HSLWheel_hue_stays_unit_witness :
  (0 <= HSLWheel.hue
          (HSLWheel.run (HSLWheel.NewHSLWheel (F := Q) 100%Z 1%Z) [6%Q; 6%Q; 0.02%Q])
   <= 1)%Q.
Proof.
  refine (proj1 (HSLWheel_hue_stays_unit 100 1 [6%Q; 6%Q; 0.02%Q] _)).
  repeat constructor; discriminate.
Defined.

(** A longer step leaves the hue above 1: [Animate] subtracts 1 once. *)
Example HSLWheel_hue_long_step :
  (HSLWheel.hue (fst (HSLWheel.Animate (HSLWheel.NewHSLWheel (F := Q) 100%Z 1%Z) 25%Q))
   == 3 # 2)%Q.
Proof. reflexivity. Qed.

Lemma on_the_field (position scale : Q) :
  (0 < scale)%Q -> (0 <= position <= scale)%Q -> (0 <= position / scale <= 1)%Q.
Proof.
  intros Hs [H0 H1]. split.
  - apply Qle_shift_div_l; [exact Hs | lra].
  - apply Qle_shift_div_r; [exact Hs | lra].
Qed.

(** X18: on the field a wheel with a hue in [0, 1] answers an opaque,
    fully saturated colour, whatever the base.  With
    [l = position / scale]: in the lower half of the field the darkest
    channel is 0 and the brightest is [floor(2 l 255)] to within one unit;
    in the upper half the brightest is 254 or 255 and the darkest is
    [floor((2 l - 1) 255)] to within one unit (the unit is what binary64
    rounding can cost); position 0 is black and position [scale] is
    white. *)
Theorem HSLWheel_ColorAt_wheel (this : HSLWheel.t Q) (position : Q) (base : RGBA) :
  (0 <= HSLWheel.hue this <= 1)%Q -> (0 < HSLWheel.scale this)%Q ->
  (0 <= position <= HSLWheel.scale this)%Q ->
  let c := HSLWheel.ColorAt this position base in
  let l := (position / HSLWheel.scale this)%Q in
  A c = 255
  /\ valid_RGBA c
  /\ ((l < 1 # 2)%Q ->
      Z.min (R c) (Z.min (G c) (B c)) = 0
      /\ Qfloor (2 * l * 255) - 1 <= Z.max (R c) (Z.max (G c) (B c))
         <= Qfloor (2 * l * 255) + 1)
  /\ ((1 # 2 <= l)%Q ->
      254 <= Z.max (R c) (Z.max (G c) (B c)) <= 255
      /\ Qfloor ((2 * l - 1) * 255) - 1 <= Z.min (R c) (Z.min (G c) (B c))
         <= Qfloor ((2 * l - 1) * 255) + 1)
  /\ ((position == 0)%Q -> c = mkRGBA 0 0 0 255)
  /\ ((position == HSLWheel.scale this)%Q -> c = mkRGBA 255 255 255 255)
  /\ (forall other : RGBA, HSLWheel.ColorAt this position other = c).
Proof.
  intros Hh Hs Hp c l.
  pose proof (on_the_field _ _ Hs Hp) as Hl. fold l in Hl.
  subst c. unfold HSLWheel.ColorAt. cbn [fdiv fconst Exact]. fold l.
  destruct (hslToRGB_range (HSLWheel.hue this) 1.0%Q l Hh ltac:(split; [reflexivity | discriminate]) Hl)
    as (Ha & Hlo & Hlh & Hhi & HR & HG & HB & Hmax & Hmin).
  set (c := HSLWheel.hslToRGB (HSLWheel.hue this) 1.0%Q l) in *.
  assert (Hlow : (l < 1 # 2)%Q ->
            Z.min (R c) (Z.min (G c) (B c)) = 0
            /\ Z.max (R c) (Z.max (G c) (B c)) = Qfloor (2 * l * 255)).
  { intros Hlt.
    assert (C : Qltb l 0.5%Q = true) by (apply Qltb_iff; lra).
    rewrite C in Hmax, Hmin. split.
    - rewrite Hmin. refine (Qfloor_comp _ 0 _). ring.
    - rewrite Hmax. apply Qfloor_comp. ring. }
  assert (Hhigh : (1 # 2 <= l)%Q ->
            Z.max (R c) (Z.max (G c) (B c)) = 255
            /\ Z.min (R c) (Z.min (G c) (B c)) = Qfloor ((2 * l - 1) * 255)).
  { intros Hge.
    assert (C : Qltb l 0.5%Q = false) by (apply Qltb_false_iff; lra).
    rewrite C in Hmax, Hmin. split.
    - rewrite Hmax. refine (Qfloor_comp _ 255 _). ring.
    - rewrite Hmin. apply Qfloor_comp. ring. }
  split; [exact Ha |].
  split; [unfold valid_RGBA, is_uint8; lia |].
  split; [intros Hlt; destruct (Hlow Hlt) as [Hmn Hmx]; split; [exact Hmn | lia] |].
  split; [intros Hge; destruct (Hhigh Hge) as [Hmx Hmn]; split; lia |].
  split; [| split].
  - intros E.
    assert (El : (l == 0)%Q) by (subst l; rewrite E; field; lra).
    destruct Hlow as [Hmn Hmx]; [lra |].
    assert (Qfloor (2 * l * 255) = 0) as E0
      by (refine (Qfloor_comp _ 0 _); rewrite El; ring).
    rewrite E0 in Hmx.
    destruct c as [r g b a]; cbn [R G B A] in *. f_equal; lia.
  - intros E.
    assert (El : (l == 1)%Q) by (subst l; rewrite E; field; lra).
    destruct Hhigh as [Hmx Hmn]; [lra |].
    assert (Qfloor ((2 * l - 1) * 255) = 255) as E1
      by (refine (Qfloor_comp _ 255 _); rewrite El; ring).
    rewrite E1 in Hmn.
    destruct c as [r g b a]; cbn [R G B A] in *. f_equal; lia.
  - intros other. reflexivity.
Qed.

Lemma HSLWheel_ColorAt_wheel_witness :
  HSLWheel.ColorAt (HSLWheel.mk 100%Q (1 # 4)%Q 1%Z) 100%Q (mkRGBA 1 2 3 4)
  = mkRGBA 255 255 255 255.
Proof.
  refine (proj1 (proj2 (proj2 (proj2 (proj2 (proj2
            (HSLWheel_ColorAt_wheel (HSLWheel.mk 100%Q (1 # 4)%Q 1%Z) 100%Q
               (mkRGBA 1 2 3 4) _ _ _)))))) _);
    try reflexivity; split; discriminate.
Defined.

(** The wheel of [NewHSLWheel(10)] at positions 0, 9 and 10, over the
    rationals and on binary64 numbers: black, a light red whose brightest
    channel is 255 in one model and 254 in the other, and white. *)
Example HSLWheel_ColorAt_rounds :
  let base := mkRGBA 1 2 3 4 in
  HSLWheel.ColorAt (HSLWheel.NewHSLWheel (F := Q) 10 0) 0%Q base = mkRGBA 0 0 0 255
  /\ HSLWheel.ColorAt (HSLWheel.NewHSLWheel (F := Q) 10 0) 9%Q base = mkRGBA 255 204 204 255
  /\ HSLWheel.ColorAt (HSLWheel.NewHSLWheel (F := Q) 10 0) 10%Q base
     = mkRGBA 255 255 255 255
  /\ HSLWheel.ColorAt (HSLWheel.NewHSLWheel (F := float) 10 0) 0%float base
     = mkRGBA 0 0 0 255
  /\ HSLWheel.ColorAt (HSLWheel.NewHSLWheel (F := float) 10 0) 9%float base
     = mkRGBA 254 204 204 255
  /\ HSLWheel.ColorAt (HSLWheel.NewHSLWheel (F := float) 10 0) 10%float base
     = mkRGBA 255 255 255 255.
Proof. vm_compute. repeat split. Qed.

(** X19: the wheel of the first listing, which lifts the luminosity to
    [0.2 + 0.8 l], is never dark on the field: with a hue in [0, 1] its
    brightest channel is at least 102, and the colour is opaque. *)
Theorem HSLWheel_ColorAt_lifted_bright (this : HSLWheel.t Q) (position : Q) (base : RGBA) :
  (0 <= HSLWheel.hue this <= 1)%Q -> (0 < HSLWheel.scale this)%Q ->
  (0 <= position <= HSLWheel.scale this)%Q ->
  let c := HSLWheel.ColorAt_lifted this position base in
  A c = 255 /\ 102 <= Z.max (R c) (Z.max (G c) (B c)) <= 255.
Proof.
  intros Hh Hs Hp c.
  pose proof (on_the_field _ _ Hs Hp) as Hl.
  subst c. unfold HSLWheel.ColorAt_lifted. cbn [fadd fmul fdiv fconst Exact].
  set (l := (position / HSLWheel.scale this * 0.8 + 0.2)%Q).
  assert (Hl' : (0 <= l <= 1)%Q) by (subst l; lra).
  assert (Hl2 : (0.2 <= l)%Q) by (subst l; lra).
  destruct (hslToRGB_range (HSLWheel.hue this) 1.0%Q l Hh ltac:(split; [reflexivity | discriminate]) Hl')
    as (Ha & Hlo & Hlh & Hhi & HR & HG & HB & Hmax & Hmin).
  split; [exact Ha |]. rewrite Hmax. split; [| exact Hhi].
  refine (Qfloor_resp_le 102 _ _).
  destruct (Qltb l 0.5%Q) eqn:C;
    [apply Qltb_iff in C | apply Qltb_false_iff in C]; lra.
Qed.

Lemma HSLWheel_ColorAt_lifted_bright_witness :
  102 <= Z.max (R (HSLWheel.ColorAt_lifted (HSLWheel.mk 100%Q (1 # 4)%Q 1%Z) 0%Q
                     (mkRGBA 1 2 3 4)))
           (Z.max (G (HSLWheel.ColorAt_lifted (HSLWheel.mk 100%Q (1 # 4)%Q 1%Z) 0%Q
                        (mkRGBA 1 2 3 4)))
                  (B (HSLWheel.ColorAt_lifted (HSLWheel.mk 100%Q (1 # 4)%Q 1%Z) 0%Q
                        (mkRGBA 1 2 3 4)))).
Proof.
  refine (proj1 (proj2
            (HSLWheel_ColorAt_lifted_bright (HSLWheel.mk 100%Q (1 # 4)%Q 1%Z) 0%Q
               (mkRGBA 1 2 3 4) _ _ _)));
    try reflexivity; split; discriminate.
Defined.
